(** * Pin-it-share: client-side feed, masonry layout, pin card and pin creation

    A shallow embedding of the application logic of the image-sharing client:

    - [JS]          the string primitives of the host language the code calls
                    ([toLowerCase], [includes], [startsWith], [split], [trim]);
    - [Pin], [Profile], [User], [File], [Gateway]
                    the records of the client and the hosted gateway, seen as
                    an oracle whose answers a handler awaits;
    - [Eff]         handlers as functions of a state that return a log of the
                    operations they perform, with exceptions;
    - [MasonryGrid] [updateColumns] and [distributeColumns];
    - [Home]        the feed screen: filter effect, mount effect, callbacks;
    - [PinCard]     the like and save handlers of one card;
    - [CreatePin]   file selection and the submission sequence;
    - [Navbar]      the search form of the navigation bar;
    - [Spec]        the notions the specification is worded with;
    - [Notions]     the notions the further properties are worded with.

    Strings are [string]s whose characters stand for the code units 0..255
    of the host language's strings (the Latin-1 range).  The feed's filter
    is written over any type of strings and is also run on sequences of
    UTF-16 code units ([Utf16]), with the host's lower-casing taken as
    given.  One click or one effect is run to completion before the next
    one starts. *)

From Stdlib Require Import ZArith Ascii String.
From stdpp Require Import base option list strings gmap sets pretty.


(* ===================================================================== *)
(** ** String primitives *)
(* ===================================================================== *)

Module JS.

(** [String.prototype.toLowerCase] on strings of code units 0..255, where
    it acts on every code unit by itself: A..Z, and the accented capitals
    U+00C0..U+00DE except the multiplication sign U+00D7, move up by 32.
    On other strings the host's lower-casing is not of this kind; see
    [Utf16] below. *)
Definition lower_char (c : ascii) : ascii :=
  let n := N_of_ascii c in
  if ((65 <=? n) && (n <=? 90)
      || (192 <=? n) && (n <=? 222) && negb (n =? 215))%N
  then ascii_of_N (n + 32) else c.

Fixpoint toLowerCase (s : string) : string :=
  match s with
  | EmptyString => EmptyString
  | String c s' => String (lower_char c) (toLowerCase s')
  end.

(** [s.startsWith(q)] *)
Fixpoint startsWith (s q : string) {struct q} : bool :=
  match q, s with
  | EmptyString, _ => true
  | String _ _, EmptyString => false
  | String b q', String a s' => if decide (a = b) then startsWith s' q' else false
  end.

(** [s.includes(q)]: [q] starts at some position of [s]. *)
Fixpoint includes (s q : string) : bool :=
  startsWith s q ||
  match s with
  | EmptyString => false
  | String _ s' => includes s' q
  end.

(** [s.split(sep)] for a separator of one character: the pieces between
    the separators, in order; never the empty array. *)
Fixpoint split (sep : ascii) (s : string) : list string :=
  match s with
  | EmptyString => [EmptyString]
  | String c s' =>
      if decide (c = sep) then EmptyString :: split sep s'
      else match split sep s' with
           | piece :: rest => String c piece :: rest
           | [] => [String c EmptyString]
           end
  end.

(** [Array.prototype.pop] seen as its result: the last element. *)
Definition pop {A} (l : list A) : option A := last l.

(** White space and line terminators among the code units 0..255:
    TAB, LF, VT, FF, CR, SPACE and NO-BREAK SPACE. *)
Definition is_white_space (c : ascii) : bool :=
  let n := N_of_ascii c in
  ((9 <=? n) && (n <=? 13) || (n =? 32) || (n =? 160))%N.

Fixpoint trimStart (s : string) : string :=
  match s with
  | EmptyString => EmptyString
  | String c s' => if is_white_space c then trimStart s' else s
  end.

Fixpoint trimEnd (s : string) : string :=
  match s with
  | EmptyString => EmptyString
  | String c s' =>
      match trimEnd s' with
      | EmptyString => if is_white_space c then EmptyString else String c EmptyString
      | t => String c t
      end
  end.

(** [s.trim()] *)
Definition trim (s : string) : string := trimEnd (trimStart s).

(** Truthiness of a string: only the empty string is falsy. *)
Definition truthy (s : string) : bool :=
  match s with EmptyString => false | String _ _ => true end.

(** [a || b] on strings. *)
Definition or_else (a b : string) : string := if truthy a then a else b.

(** Every character of a string is white space. *)
Fixpoint all_white_space (s : string) : bool :=
  match s with
  | EmptyString => true
  | String c s' => is_white_space c && all_white_space s'
  end.

(** A character occurs in a string. *)
Fixpoint occurs (c : ascii) (s : string) : bool :=
  match s with
  | EmptyString => false
  | String d s' => if decide (d = c) then true else occurs c s'
  end.

(** [pieces.join(sep)] for a separator of one character. *)
Fixpoint join (sep : ascii) (pieces : list string) : string :=
  match pieces with
  | [] => EmptyString
  | [p] => p
  | p :: rest => p +:+ String sep (join sep rest)
  end.

Definition first_char (s : string) : option ascii :=
  match s with EmptyString => None | String c _ => Some c end.

Fixpoint last_char (s : string) : option ascii :=
  match s with
  | EmptyString => None
  | String c EmptyString => Some c
  | String _ s' => last_char s'
  end.

End JS.

(* ===================================================================== *)
(** ** Data model, gateway and effects *)
(* ===================================================================== *)

(** The author record attached to a pin by the feed.  [T] is the type
    that stands for the host's strings; [t] is the record over [string]. *)
Module Profile.
Record t_ (T : Type) := mk {
  username : T;
  display_name : option T;
  avatar_url : option T
}.
Arguments mk {T} _ _ _.
Arguments username {T} _.
Arguments display_name {T} _.
Arguments avatar_url {T} _.
Abbreviation t := (t_ string).
End Profile.

(** [interface Pin]; a field marked [?] in the source is an [option]. *)
Module Pin.
Record t_ (T : Type) := mk {
  id : T;
  title : T;
  description : option T;
  image_url : T;
  tags : option (list T);
  user_id : T;
  created_at : T;
  profiles : option (Profile.t_ T)
}.
Arguments mk {T} _ _ _ _ _ _ _ _.
Arguments id {T} _.
Arguments title {T} _.
Arguments description {T} _.
Arguments image_url {T} _.
Arguments tags {T} _.
Arguments user_id {T} _.
Arguments created_at {T} _.
Arguments profiles {T} _.
Abbreviation t := (t_ string).

Definition with_profiles {T} (pin : t_ T) (profile : option (Profile.t_ T)) : t_ T :=
  mk (id pin) (title pin) (description pin) (image_url pin) (tags pin)
     (user_id pin) (created_at pin) profile.
End Pin.

(** The string methods of the host that the feed's filter calls, on a type
    [T] that stands for the host's strings. *)
Module Host.
Record t (T : Type) := mk {
  toLowerCase : T -> T;
  includes : T -> T -> bool;
  truthy : T -> bool
}.
Arguments mk {T} _ _ _.
Arguments toLowerCase {T} _ _.
Arguments includes {T} _ _ _.
Arguments truthy {T} _ _.
End Host.

(** The methods on [string]. *)
Definition js_host : Host.t string := Host.mk JS.toLowerCase JS.includes JS.truthy.

(** Host strings as they are: sequences of UTF-16 code units. *)
Module Utf16.

Definition t := list N.

(** [s.startsWith(q)] *)
Fixpoint startsWith (s q : t) {struct q} : bool :=
  match q, s with
  | [], _ => true
  | _ :: _, [] => false
  | b :: q', a :: s' => if decide (a = b) then startsWith s' q' else false
  end.

(** [s.includes(q)] *)
Fixpoint includes (s q : t) : bool :=
  startsWith s q ||
  match s with
  | [] => false
  | _ :: s' => includes s' q
  end.

Definition truthy (s : t) : bool :=
  match s with [] => false | _ :: _ => true end.

(** The host's methods, with its lower-casing taken as given: the case
    mapping of the host is not part of this program. *)
Definition host (toLowerCase : t -> t) : Host.t t :=
  Host.mk toLowerCase includes truthy.

(** *** Lower-casing of Basic Latin and Greek text

    The host's [toLowerCase] on strings whose code units are Basic Latin
    (U+0000..U+007F) or Greek letters (U+0391..U+03A9, U+03B1..U+03C9).
    A letter maps to its small letter; a capital sigma maps to the final
    sigma U+03C2 when it ends a word (a cased letter comes before it, with
    only case-ignorable characters in between, and none comes after it in
    the same way), and to U+03C3 otherwise. *)

Definition SIGMA : N := 0x3A3.
Definition sigma : N := 0x3C3.
Definition final_sigma : N := 0x3C2.

Definition is_basic_capital (c : N) : bool := ((0x41 <=? c) && (c <=? 0x5A))%N.
Definition is_greek_capital (c : N) : bool :=
  ((0x391 <=? c) && (c <=? 0x3A9) && negb (c =? 0x3A2))%N.

Definition is_cased (c : N) : bool :=
  (is_basic_capital c || (0x61 <=? c) && (c <=? 0x7A)
   || is_greek_capital c || (0x3B1 <=? c) && (c <=? 0x3C9))%N.

(** Apostrophe, full stop, colon, circumflex and grave accent. *)
Definition is_case_ignorable (c : N) : bool :=
  ((c =? 0x27) || (c =? 0x2E) || (c =? 0x3A) || (c =? 0x5E) || (c =? 0x60))%N.

(** The nearest character that is not case-ignorable is a cased letter. *)
Fixpoint cased_next (s : t) : bool :=
  match s with
  | [] => false
  | c :: s' => if is_case_ignorable c then cased_next s' else is_cased c
  end.

Definition lower_unit (c : N) : N :=
  if is_basic_capital c || is_greek_capital c then (c + 0x20)%N else c.

(** [before] holds the code units already passed, nearest first. *)
Fixpoint lower_from (before s : t) : t :=
  match s with
  | [] => []
  | c :: s' =>
      (if (c =? SIGMA)%N then
         if cased_next before && negb (cased_next s') then final_sigma else sigma
       else lower_unit c)
      :: lower_from (c :: before) s'
  end.

Definition toLowerCase (s : t) : t := lower_from [] s.

End Utf16.

(** The session's user, as far as the code reads it. *)
Module User.
Record t := mk { id : string }.
End User.

(** A browser [File]. *)
Module File.
Record t := mk { name : string; size : N; type : string }.
End File.

(** A value that reaches a [catch]: only its [message] is read. *)
Module Error.
Record t := mk { message : option string }.
End Error.

(** The row given to [from('pins').insert]. *)
Module NewPin.
Record t := mk {
  user_id : string;
  title : string;
  description : option string;
  image_url : string;
  tags : list string
}.
End NewPin.

Inductive Table := likes | saves.

(** What a handler does to the outside world, in the order it does it. *)
Inductive Op :=
  | SelectPins
  | SelectProfile (user_id : string)
  | SelectPinIds (table : Table) (user_id : string)
  | DeleteRow (table : Table) (user_id pin_id : string)
  | InsertRow (table : Table) (user_id pin_id : string)
  | DeletePin (pin_id : string)
  | Upload (path : string) (file : File.t)
  | GetPublicUrl (path : string)
  | InsertPin (row : NewPin.t)
  | Toast (title description : string) (destructive : bool)
  | Navigate (to : string)
  | ReadAsDataURL (file : File.t)
  | ConsoleError.

(** The operations that reach the hosted gateway. *)
Definition is_gateway (op : Op) : bool :=
  match op with
  | Toast _ _ _ | Navigate _ | ReadAsDataURL _ | ConsoleError => false
  | _ => true
  end.

(** An awaited promise either fulfils with a value or rejects. *)
Inductive settled (A : Type) :=
  | Fulfilled (a : A)
  | Rejected (e : Error.t).
Arguments Fulfilled {A} a.
Arguments Rejected {A} e.

(** The [{ data, error }] object of a gateway answer. *)
Record Response (A : Type) := mkResponse { data : option A; error : option Error.t }.
Arguments mkResponse {A} data error.
Arguments data {A} r.
Arguments error {A} r.

(** The hosted gateway, seen from the client as an oracle. *)
Record Gateway := mkGateway {
  select_pins : settled (Response (list Pin.t));
  select_profile : string -> settled (Response Profile.t);
  select_pin_ids : Table -> string -> settled (Response (list string));
  delete_row : Table -> string -> string -> settled (Response unit);
  insert_row : Table -> string -> string -> settled (Response unit);
  delete_pin : string -> settled (Response unit);
  upload : string -> File.t -> settled (Response unit);
  getPublicUrl : string -> string;
  insert_pin : NewPin.t -> settled (Response unit)
}.

(** Handlers: a state, a log of operations, and exceptions. *)
Module Eff.

Inductive result (A : Type) :=
  | Ok (a : A)
  | Thrown (e : Error.t).
Arguments Ok {A} a.
Arguments Thrown {A} e.

Definition t (St A : Type) : Type := St -> result A * St * list Op.

Section Ops.
Context {St : Type}.

Definition ret {A} (a : A) : t St A := fun s => (Ok a, s, []).

Definition bind {A B} (m : t St A) (k : A -> t St B) : t St B :=
  fun s =>
    match m s with
    | (Ok a, s1, l1) => let '(r, s2, l2) := k a s1 in (r, s2, l1 ++ l2)
    | (Thrown e, s1, l1) => (Thrown e, s1, l1)
    end.

Definition throw {A} (e : Error.t) : t St A := fun s => (Thrown e, s, []).

Definition get : t St St := fun s => (Ok s, s, []).

Definition modify (f : St -> St) : t St unit := fun s => (Ok tt, f s, []).

Definition emit (op : Op) : t St unit := fun s => (Ok tt, s, [op]).

(** [await p] *)
Definition await {A} (p : settled A) : t St A :=
  match p with
  | Fulfilled a => ret a
  | Rejected e => throw e
  end.

(** [try { m } catch (e) { h e }]: what [m] did before it threw stays. *)
Definition try_catch {A} (m : t St A) (h : Error.t -> t St A) : t St A :=
  fun s =>
    match m s with
    | (Ok a, s1, l1) => (Ok a, s1, l1)
    | (Thrown e, s1, l1) => let '(r, s2, l2) := h e s1 in (r, s2, l1 ++ l2)
    end.

(** [try { m } finally { f }] *)
Definition try_finally {A} (m : t St A) (f : t St unit) : t St A :=
  fun s =>
    let '(r, s1, l1) := m s in
    match f s1 with
    | (Ok _, s2, l2) => (r, s2, l1 ++ l2)
    | (Thrown e, s2, l2) => (Thrown e, s2, l1 ++ l2)
    end.

(** [if (r.error) throw r.error] *)
Definition throw_if_error {A} (r : Response A) : t St unit :=
  match error r with
  | Some e => throw e
  | None => ret tt
  end.
End Ops.

(** The state a handler leaves, and what it did. *)
Definition state_of {St A} (x : result A * St * list Op) : St := snd (fst x).
Definition log_of {St A} (x : result A * St * list Op) : list Op := snd x.
Definition result_of {St A} (x : result A * St * list Op) : result A := fst (fst x).

End Eff.

Notation "x <- m ;; k" := (Eff.bind m (fun x => k))
  (at level 100, m at next level, right associativity).
Notation "m ;;; k" := (Eff.bind m (fun _ => k))
  (at level 100, right associativity).

Module EffExtra.
Import Eff.
Section Ops.
Context {St : Type}.

(** A call of an async function that is not awaited: what it does
    happens, a rejection of its promise reaches nobody. *)
Definition fork {A} (m : t St A) : t St unit :=
  fun s => let '(_, s1, l1) := m s in (Ok tt, s1, l1).

Fixpoint emit_all (ops : list Op) : t St unit :=
  match ops with
  | [] => ret tt
  | op :: rest => emit op ;;; emit_all rest
  end.

(** [Promise.all(ps)]: fulfils with all the values, or rejects as soon as
    one of the promises does. *)
Fixpoint promise_all {A} (ps : list (settled A)) : settled (list A) :=
  match ps with
  | [] => Fulfilled []
  | Rejected e :: _ => Rejected e
  | Fulfilled a :: rest =>
      match promise_all rest with
      | Fulfilled l => Fulfilled (a :: l)
      | Rejected e => Rejected e
      end
  end.

(** A handler of a parent component run from a child. *)
Definition lift_snd {C A} (m : t St A) : t (C * St) A :=
  fun s => let '(r, p, l) := m (snd s) in (r, (fst s, p), l).
End Ops.
End EffExtra.

(* ===================================================================== *)
(** ** components/MasonryGrid.tsx *)
(* ===================================================================== *)

Module MasonryGrid.

(** [columns] is the component's state; [innerWidth] is the window's and
    [listening] tells whether [updateColumns] is registered for [resize]. *)
Record state := mkState { innerWidth : Z; columns : nat; listening : bool }.

(** [useState(4)], before the mount effect has run. *)
Definition initial (width : Z) : state := mkState width 4 false.

Definition setColumns (n : nat) (st : state) : state :=
  mkState (innerWidth st) n (listening st).

Definition updateColumns (st : state) : state :=
  let width := innerWidth st in
  if (width <? 640)%Z then setColumns 2 st
  else if (width <? 1024)%Z then setColumns 3 st
  else if (width <? 1280)%Z then setColumns 4 st
  else setColumns 5 st.

Inductive event :=
  | Mount
  | Resize (width : Z)
  | Unmount.

(** The effect with the empty dependency list, the [resize] listener it
    registers and its cleanup. *)
Definition step (st : state) (ev : event) : state :=
  match ev with
  | Mount =>
      let st1 := updateColumns st in
      mkState (innerWidth st1) (columns st1) true
  | Resize width =>
      let st1 := mkState width (columns st) (listening st) in
      if listening st1 then updateColumns st1 else st1
  | Unmount => mkState (innerWidth st) (columns st) false
  end.

Definition run (evs : list event) (st : state) : state := fold_left step evs st.

(** [index % columns]; [None] is NaN. *)
Definition js_mod (index columns : nat) : option nat :=
  match columns with
  | 0 => None
  | _ => Some (index mod columns)
  end.

(** The [forEach] loop of [distributeColumns] from position [index] on;
    [None] is the TypeError of [cols[columnIndex].push] on [undefined]. *)
Fixpoint forEach_push (columns index : nat) (pins : list Pin.t)
    (cols : list (list Pin.t)) : option (list (list Pin.t)) :=
  match pins with
  | [] => Some cols
  | pin :: rest =>
      match js_mod index columns with
      | None => None
      | Some columnIndex =>
          match cols !! columnIndex with
          | None => None
          | Some col =>
              forEach_push columns (S index) rest (<[columnIndex := col ++ [pin]]> cols)
          end
      end
  end.

Definition distributeColumns (columns : nat) (pins : list Pin.t)
    : option (list (list Pin.t)) :=
  let cols := replicate columns [] in
  forEach_push columns 0 pins cols.

End MasonryGrid.

(* ===================================================================== *)
(** ** pages/Home.tsx *)
(* ===================================================================== *)

Module Home.
Import Eff EffExtra.

Record state := mkState {
  pins : list Pin.t;
  filteredPins : list Pin.t;
  likedPins : gset string;
  savedPins : gset string;
  loading : bool;
  searchQuery : string
}.

Definition initial : state := mkState [] [] ∅ ∅ true "".

Definition setPins (v : list Pin.t) (s : state) : state :=
  mkState v (filteredPins s) (likedPins s) (savedPins s) (loading s) (searchQuery s).
Definition setFilteredPins (v : list Pin.t) (s : state) : state :=
  mkState (pins s) v (likedPins s) (savedPins s) (loading s) (searchQuery s).
Definition setLikedPins (v : gset string) (s : state) : state :=
  mkState (pins s) (filteredPins s) v (savedPins s) (loading s) (searchQuery s).
Definition setSavedPins (v : gset string) (s : state) : state :=
  mkState (pins s) (filteredPins s) (likedPins s) v (loading s) (searchQuery s).
Definition setLoading (v : bool) (s : state) : state :=
  mkState (pins s) (filteredPins s) (likedPins s) (savedPins s) v (searchQuery s).
Definition setSearchQuery (v : string) (s : state) : state :=
  mkState (pins s) (filteredPins s) (likedPins s) (savedPins s) (loading s) v.

(** [field?.toLowerCase().includes(searchQuery.toLowerCase())] as a
    condition: an absent field is [undefined], which is falsy. *)
Definition includes_query {T} (host : Host.t T) (searchQuery : T) (field : option T)
    : bool :=
  match field with
  | Some s =>
      Host.includes host (Host.toLowerCase host s) (Host.toLowerCase host searchQuery)
  | None => false
  end.

(** The callback given to [pins.filter]. *)
Definition matches {T} (host : Host.t T) (searchQuery : T) (pin : Pin.t_ T) : bool :=
  includes_query host searchQuery (Some (Pin.title pin))
  || includes_query host searchQuery (Pin.description pin)
  || match Pin.tags pin with
     | Some tags => existsb (fun tag => includes_query host searchQuery (Some tag)) tags
     | None => false
     end
  || includes_query host searchQuery (Profile.username <$> Pin.profiles pin)
  || includes_query host searchQuery (Pin.profiles pin ≫= Profile.display_name).

(** What the filter effect gives to [setFilteredPins]. *)
Definition filter_pins {T} (host : Host.t T) (searchQuery : T) (pins : list (Pin.t_ T))
    : list (Pin.t_ T) :=
  if negb (Host.truthy host searchQuery) then pins
  else
    let filtered := List.filter (matches host searchQuery) pins in
    filtered.

(** The effect that depends on [pins] and [searchQuery]. *)
Definition filterEffect : Eff.t state unit :=
  s <- get ;;
  modify (setFilteredPins (filter_pins js_host (searchQuery s) (pins s))).

(** The per-pin profile lookups: every request is issued, then all are
    awaited together. *)
Definition attach_profile (gw : Gateway) (pin : Pin.t) : settled Pin.t :=
  match select_profile gw (Pin.user_id pin) with
  | Fulfilled r => Fulfilled (Pin.with_profiles pin (data r))
  | Rejected e => Rejected e
  end.

Definition fetchPins (gw : Gateway) : Eff.t state unit :=
  try_finally
    (try_catch
       (emit SelectPins ;;;
        r <- await (select_pins gw) ;;
        throw_if_error r ;;;
        let pinsData := default [] (data r) in
        emit_all ((fun pin => SelectProfile (Pin.user_id pin)) <$> pinsData) ;;;
        pinsWithProfiles <- await (promise_all (attach_profile gw <$> pinsData)) ;;
        modify (setPins pinsWithProfiles))
       (fun _ => emit (Toast "Error" "Failed to load pins" true)))
    (modify (setLoading false)).

Definition fetchUserInteractions (gw : Gateway) (user : option User.t)
    : Eff.t state unit :=
  match user with
  | None => ret tt
  | Some u =>
      try_catch
        (emit (SelectPinIds likes (User.id u)) ;;;
         r <- await (select_pin_ids gw likes (User.id u)) ;;
         match data r with
         | Some ids => modify (setLikedPins (list_to_set ids))
         | None => ret tt
         end ;;;
         emit (SelectPinIds saves (User.id u)) ;;;
         r <- await (select_pin_ids gw saves (User.id u)) ;;
         match data r with
         | Some ids => modify (setSavedPins (list_to_set ids))
         | None => ret tt
         end)
        (fun _ => emit ConsoleError)
  end.

(** The effect that depends on [user].  Both calls are started without
    being awaited and touch different parts of the state.  The log lists
    what [fetchPins] does before what [fetchUserInteractions] does: it
    tells which operations are performed, not the order in which the two
    calls reach the gateway. *)
Definition mountEffect (gw : Gateway) (user : option User.t) : Eff.t state unit :=
  fork (fetchPins gw) ;;;
  match user with
  | Some _ => fork (fetchUserInteractions gw user)
  | None => ret tt
  end.

Definition handleLike (pinId : string) (liked : bool) : Eff.t state unit :=
  modify (fun s =>
    let prev := likedPins s in
    let newSet := if liked then prev ∪ {[pinId]} else prev ∖ {[pinId]} in
    setLikedPins newSet s).

Definition handleSave (pinId : string) (saved : bool) : Eff.t state unit :=
  modify (fun s =>
    let prev := savedPins s in
    let newSet := if saved then prev ∪ {[pinId]} else prev ∖ {[pinId]} in
    setSavedPins newSet s).

Definition handleDelete (pinId : string) : Eff.t state unit :=
  modify (fun s =>
    let prev := pins s in
    setPins (List.filter (fun pin => negb (bool_decide (Pin.id pin = pinId))) prev) s).

Definition handleSearch (query : string) : Eff.t state unit :=
  modify (setSearchQuery query).

End Home.

(* ===================================================================== *)
(** ** components/PinCard.tsx *)
(* ===================================================================== *)

Module PinCard.
Import Eff EffExtra.

Record state := mkState { isLiked : bool; isSaved : bool; imageLoaded : bool }.

Definition setIsLiked (v : bool) (s : state) : state :=
  mkState v (isSaved s) (imageLoaded s).
Definition setIsSaved (v : bool) (s : state) : state :=
  mkState (isLiked s) v (imageLoaded s).

Section Card.
(** The component that renders the card and owns the callbacks. *)
Context {Parent : Type}.

Record props := mkProps {
  pin : Pin.t;
  liked : bool;
  saved : bool;
  onLike : option (string -> bool -> Eff.t Parent unit);
  onSave : option (string -> bool -> Eff.t Parent unit);
  onDelete : option (string -> Eff.t Parent unit)
}.

(** [useState(liked)], [useState(saved)], [useState(false)] *)
Definition initial (p : props) : state := mkState (liked p) (saved p) false.

(** [callback?.(args)] *)
Definition call_optional (cb : option (Eff.t Parent unit)) : Eff.t (state * Parent) unit :=
  match cb with
  | Some f => lift_snd f
  | None => ret tt
  end.

Definition on_card (f : state -> state) : Eff.t (state * Parent) unit :=
  modify (fun s => (f (fst s), snd s)).

Variable gw : Gateway.
Variable user : option User.t.
Variable p : props.

Definition handleLike : Eff.t (state * Parent) unit :=
  match user with
  | None => ret tt
  | Some u =>
      try_catch
        (s <- get ;;
         let isLiked := isLiked (fst s) in
         (if isLiked then
            emit (DeleteRow likes (User.id u) (Pin.id (pin p))) ;;;
            _ <- await (delete_row gw likes (User.id u) (Pin.id (pin p))) ;;
            ret tt
          else
            emit (InsertRow likes (User.id u) (Pin.id (pin p))) ;;;
            _ <- await (insert_row gw likes (User.id u) (Pin.id (pin p))) ;;
            ret tt) ;;;
         on_card (setIsLiked (negb isLiked)) ;;;
         call_optional ((fun f => f (Pin.id (pin p)) (negb isLiked)) <$> onLike p))
        (fun _ => emit (Toast "Error" "Failed to update like status" true))
  end.

Definition handleSave : Eff.t (state * Parent) unit :=
  match user with
  | None => ret tt
  | Some u =>
      try_catch
        (s <- get ;;
         let isSaved := isSaved (fst s) in
         (if isSaved then
            emit (DeleteRow saves (User.id u) (Pin.id (pin p))) ;;;
            _ <- await (delete_row gw saves (User.id u) (Pin.id (pin p))) ;;
            ret tt
          else
            emit (InsertRow saves (User.id u) (Pin.id (pin p))) ;;;
            _ <- await (insert_row gw saves (User.id u) (Pin.id (pin p))) ;;
            ret tt) ;;;
         on_card (setIsSaved (negb isSaved)) ;;;
         call_optional ((fun f => f (Pin.id (pin p)) (negb isSaved)) <$> onSave p))
        (fun _ => emit (Toast "Error" "Failed to update save status" true))
  end.
(** The like handler as one render creates it: [isLiked] is the value of
    the flag in that render, which the handler keeps for all its calls
    until the card renders again. *)
Definition handleLike_of_render (isLiked : bool) : Eff.t (state * Parent) unit :=
  match user with
  | None => ret tt
  | Some u =>
      try_catch
        ((if isLiked then
            emit (DeleteRow likes (User.id u) (Pin.id (pin p))) ;;;
            _ <- await (delete_row gw likes (User.id u) (Pin.id (pin p))) ;;
            ret tt
          else
            emit (InsertRow likes (User.id u) (Pin.id (pin p))) ;;;
            _ <- await (insert_row gw likes (User.id u) (Pin.id (pin p))) ;;
            ret tt) ;;;
         on_card (setIsLiked (negb isLiked)) ;;;
         call_optional ((fun f => f (Pin.id (pin p)) (negb isLiked)) <$> onLike p))
        (fun _ => emit (Toast "Error" "Failed to update like status" true))
  end.

(** [user?.id === pin.user_id] *)
Definition isOwner : bool :=
  match user with
  | Some u => bool_decide (User.id u = Pin.user_id (pin p))
  | None => false
  end.

Definition handleDelete : Eff.t (state * Parent) unit :=
  if negb isOwner then ret tt
  else
    try_catch
      (emit (DeletePin (Pin.id (pin p))) ;;;
       _ <- await (delete_pin gw (Pin.id (pin p))) ;;
       call_optional ((fun f => f (Pin.id (pin p))) <$> onDelete p) ;;;
       emit (Toast "Pin deleted" "Your pin has been deleted successfully" false))
      (fun _ => emit (Toast "Error" "Failed to delete pin" true)).
End Card.

Arguments props : clear implicits.

(** The card as the feed renders it, through the masonry grid. *)
Definition in_feed (pin : Pin.t) (feed : Home.state) : props Home.state :=
  mkProps pin
    (bool_decide (Pin.id pin ∈ Home.likedPins feed))
    (bool_decide (Pin.id pin ∈ Home.savedPins feed))
    (Some Home.handleLike) (Some Home.handleSave) (Some Home.handleDelete).

(** Clicks on one card of the feed, each made after the previous one has
    completed and the card has rendered again, and handled with the feed
    as it is at that moment. *)
Inductive click := LikeClick | SaveClick.

Definition on_click (gw : Gateway) (user : option User.t) (pin : Pin.t) (c : click)
    : Eff.t (state * Home.state) unit :=
  fun s =>
    match c with
    | LikeClick => handleLike gw user (in_feed pin (snd s)) s
    | SaveClick => handleSave gw user (in_feed pin (snd s)) s
    end.

Fixpoint on_clicks (gw : Gateway) (user : option User.t) (pin : Pin.t)
    (cs : list click) : Eff.t (state * Home.state) unit :=
  match cs with
  | [] => ret tt
  | c :: rest => on_click gw user pin c ;;; on_clicks gw user pin rest
  end.

(** The author line of a card:
    [pin.profiles?.display_name || pin.profiles?.username || 'Unknown User'] *)
Definition author_label (pin : Pin.t) : string :=
  JS.or_else (default "" (Pin.profiles pin ≫= Profile.display_name))
    (JS.or_else (default "" (Profile.username <$> Pin.profiles pin)) "Unknown User").

(** The tags a card shows: [pin.tags.slice(0, 3)], when there are tags. *)
Definition shown_tags (pin : Pin.t) : list string :=
  match Pin.tags pin with
  | Some tags => if (0 <? length tags)%nat then take 3 tags else []
  | None => []
  end.

(** The file name [handleDownload] gives the link:
    [`${pin.title || 'pin'}.jpg`] *)
Definition download_name (pin : Pin.t) : string :=
  JS.or_else (Pin.title pin) "pin" +:+ ".jpg".

End PinCard.

(* ===================================================================== *)
(** ** pages/CreatePin.tsx *)
(* ===================================================================== *)

Module CreatePin.
Import Eff EffExtra.

Record form := mkForm { title : string; description : string; tags : string }.

Record state := mkState {
  loading : bool;
  imageFile : option File.t;
  imagePreview : string;
  formData : form
}.

Definition initial : state := mkState false None "" (mkForm "" "" "").

Definition setLoading (v : bool) (s : state) : state :=
  mkState v (imageFile s) (imagePreview s) (formData s).
Definition setImageFile (v : option File.t) (s : state) : state :=
  mkState (loading s) v (imagePreview s) (formData s).
Definition setImagePreview (v : string) (s : state) : state :=
  mkState (loading s) (imageFile s) v (formData s).
Definition setFormData (v : form) (s : state) : state :=
  mkState (loading s) (imageFile s) (imagePreview s) v.

(** [10 * 1024 * 1024] *)
Definition size_limit : N := 10 * 1024 * 1024.

(** [file] is [e.target.files?.[0]]. *)
Definition handleImageUpload (file : option File.t) : Eff.t state unit :=
  match file with
  | None => ret tt
  | Some file =>
      if (size_limit <? File.size file)%N then
        emit (Toast "File too large" "Please choose an image smaller than 10MB" true)
      else if negb (JS.startsWith (File.type file) "image/") then
        emit (Toast "Invalid file type" "Please choose an image file" true)
      else
        modify (setImageFile (Some file)) ;;;
        emit (ReadAsDataURL file)
  end.

(** [reader.onload], with [result] the data URL the read produced. *)
Definition reader_onload (result : string) : Eff.t state unit :=
  modify (setImagePreview result).

Definition removeImage : Eff.t state unit :=
  modify (setImageFile None) ;;;
  modify (setImagePreview "").

(** The tags parsed by [handleSubmit]. *)
Definition parse_tags (tags : string) : list string :=
  List.filter (fun tag => (0 <? String.length tag)%nat)
    (List.map (fun tag => JS.trim tag) (JS.split "," tags)).

(** A template literal prints [undefined] by name. *)
Definition template_string (v : option string) : string := default "undefined" v.

(** The storage path of the upload; [now] is [Date.now()]. *)
Definition fileName (user : User.t) (now : N) (imageFile : File.t) : string :=
  let fileExt := JS.pop (JS.split "." (File.name imageFile)) in
  User.id user +:+ "/" +:+ pretty now +:+ "." +:+ template_string fileExt.

(** The record given to [insert]. *)
Definition pin_row (user : User.t) (formData : form) (publicUrl : string) : NewPin.t :=
  let tags := parse_tags (tags formData) in
  NewPin.mk (User.id user) (title formData)
    (if JS.truthy (description formData) then Some (description formData) else None)
    publicUrl tags.

(** [error.message || "Something went wrong"] *)
Definition error_description (error : Error.t) : string :=
  JS.or_else (default "" (Error.message error)) "Something went wrong".

Definition handleSubmit (gw : Gateway) (now : N) (user : option User.t)
    : Eff.t state unit :=
  s <- get ;;
  match user, imageFile s with
  | Some user, Some imageFile =>
      modify (setLoading true) ;;;
      try_finally
        (try_catch
           (let fileName := fileName user now imageFile in
            emit (Upload fileName imageFile) ;;;
            r <- await (upload gw fileName imageFile) ;;
            throw_if_error r ;;;
            emit (GetPublicUrl fileName) ;;;
            let publicUrl := getPublicUrl gw fileName in
            let row := pin_row user (formData s) publicUrl in
            emit (InsertPin row) ;;;
            r <- await (insert_pin gw row) ;;
            throw_if_error r ;;;
            emit (Toast "Pin created!" "Your pin has been shared successfully." false) ;;;
            emit (Navigate "/"))
           (fun error =>
              emit (Toast "Error creating pin" (error_description error) true)))
        (modify (setLoading false))
  | _, _ => ret tt
  end.

(** [disabled={!imageFile || !formData.title || loading}] of the
    submit button. *)
Definition submit_disabled (s : state) : bool :=
  negb (bool_decide (is_Some (imageFile s)))
  || negb (JS.truthy (title (formData s)))
  || loading s.

(** The [onChange] handlers of the three form fields. *)
Definition changeTitle (v : string) : Eff.t state unit :=
  modify (fun s => setFormData (mkForm v (description (formData s)) (tags (formData s))) s).
Definition changeDescription (v : string) : Eff.t state unit :=
  modify (fun s => setFormData (mkForm (title (formData s)) v (tags (formData s))) s).
Definition changeTags (v : string) : Eff.t state unit :=
  modify (fun s => setFormData (mkForm (title (formData s)) (description (formData s)) v) s).

(** What can happen on the creation screen. *)
Inductive event :=
  | SelectFile (file : option File.t)
  | ReaderLoaded (result : string)
  | RemoveImage
  | ChangeTitle (v : string)
  | ChangeDescription (v : string)
  | ChangeTags (v : string)
  | Submit (now : N).

Definition handle (gw : Gateway) (user : option User.t) (ev : event) : Eff.t state unit :=
  match ev with
  | SelectFile file => handleImageUpload file
  | ReaderLoaded result => reader_onload result
  | RemoveImage => removeImage
  | ChangeTitle v => changeTitle v
  | ChangeDescription v => changeDescription v
  | ChangeTags v => changeTags v
  | Submit now => handleSubmit gw now user
  end.

Fixpoint handle_all (gw : Gateway) (user : option User.t) (evs : list event)
    : Eff.t state unit :=
  match evs with
  | [] => ret tt
  | ev :: rest => handle gw user ev ;;; handle_all gw user rest
  end.

End CreatePin.

(* ===================================================================== *)
(** ** components/Navbar.tsx *)
(* ===================================================================== *)

Module Navbar.
Import Eff EffExtra.

Record state := mkState { localSearchQuery : string }.

Section Bar.
(** The component that renders the bar and owns [onSearch]. *)
Context {Parent : Type}.

Record props := mkProps {
  onSearch : option (string -> Eff.t Parent unit);
  searchQuery : string
}.

(** [useState(searchQuery)] *)
Definition initial (p : props) : state := mkState (searchQuery p).

(** The [onChange] of the search input. *)
Definition setLocalSearchQuery (v : string) : Eff.t (state * Parent) unit :=
  modify (fun s => (mkState v, snd s)).

Definition handleSearch (p : props) : Eff.t (state * Parent) unit :=
  s <- get ;;
  match onSearch p with
  | Some f => lift_snd (f (localSearchQuery (fst s)))
  | None => ret tt
  end.

Definition handleCreatePin : Eff.t (state * Parent) unit := emit (Navigate "/create").

Definition handleProfile : Eff.t (state * Parent) unit := emit (Navigate "/profile").
End Bar.

Arguments props : clear implicits.

(** The bar as the feed renders it. *)
Definition in_feed (feed : Home.state) : props Home.state :=
  mkProps (Some Home.handleSearch) (Home.searchQuery feed).

End Navbar.

(* ===================================================================== *)
(** ** Sample data *)
(* ===================================================================== *)

Module Sample.

Definition author : Profile.t := Profile.mk "ana" (Some "Ana Lima") None.

Definition pin_of (id title : string) : Pin.t :=
  Pin.mk id title None ("https://img/" +:+ id) (Some ["travel"]) "u1" "2024-01-01"
    (Some author).

Definition a : Pin.t := pin_of "a" "Sunset".
Definition b : Pin.t := pin_of "b" "Harbour".
Definition c : Pin.t := pin_of "c" "Old town".
Definition d : Pin.t := pin_of "d" "Market".
Definition e : Pin.t := pin_of "e" "Lighthouse".

Definition feed : list Pin.t := [a; b; c; d; e].

Definition user : User.t := User.mk "u1".

(** A pin whose title is the Greek word for street in capitals (omicron,
    delta, omicron, sigma), with no description, tags or author. *)
Definition street : Pin.t_ Utf16.t :=
  Pin.mk [0x70; 0x31]%N [0x39F; 0x394; 0x39F; 0x3A3]%N None [] None [0x75; 0x31]%N []
    None.

Definition ok {A} (v : A) : settled (Response A) := Fulfilled (mkResponse (Some v) None).

(** A gateway that answers every request. *)
Definition gateway : Gateway :=
  mkGateway (ok [Pin.with_profiles a None; Pin.with_profiles b None])
    (fun _ => ok author)
    (fun table _ => match table with likes => ok ["a"] | saves => ok ["b"] end)
    (fun _ _ _ => ok tt) (fun _ _ _ => ok tt) (fun _ => ok tt)
    (fun _ _ => ok tt) (fun path => "https://cdn/" +:+ path) (fun _ => ok tt).

(** A gateway whose every request rejects, with an error of empty message. *)
Definition silent_error : Error.t := Error.mk (Some "").

Definition failing_gateway : Gateway :=
  mkGateway (Rejected silent_error)
    (fun _ => Rejected silent_error)
    (fun _ _ => Rejected silent_error)
    (fun _ _ _ => Rejected silent_error) (fun _ _ _ => Rejected silent_error)
    (fun _ => Rejected silent_error)
    (fun _ _ => Rejected silent_error) (fun path => "https://cdn/" +:+ path)
    (fun _ => Rejected silent_error).

Definition photo : File.t := File.mk "beach.jpeg" 204800 "image/jpeg".
Definition huge_photo : File.t := File.mk "poster.png" (11 * 1024 * 1024) "image/png".
Definition document : File.t := File.mk "notes.pdf" 1024 "application/pdf".

(** The creation form, filled in and with an image selected. *)
Definition tagged_draft : CreatePin.state :=
  CreatePin.mkState false (Some photo) ""
    (CreatePin.mkForm "Beach" "" "food, , recipe").

End Sample.

(* ===================================================================== *)
(** ** The specification's vocabulary *)
(* ===================================================================== *)

(** The notions the specification words its properties with, stated
  without reference to the code above. *)
Module Spec.

(** [q] occurs in [s] as a contiguous run of code units. *)
Definition occurs_in {A} (q s : list A) : Prop :=
  ∃ before after, s = before ++ q ++ after.

(** The breakpoint table: the column count for a viewport width. *)
Definition breakpoint (width : Z) (count : nat) : Prop :=
  ((width < 640)%Z ∧ count = 2)
  ∨ ((640 ≤ width < 1024)%Z ∧ count = 3)
  ∨ ((1024 ≤ width < 1280)%Z ∧ count = 4)
  ∨ ((1280 ≤ width)%Z ∧ count = 5).

(** The pins of a sequence whose position, counted from [index], is
    congruent to [c] modulo [C], in the order of the sequence. *)
Fixpoint column_from (C c index : nat) (pins : list Pin.t) : list Pin.t :=
  match pins with
  | [] => []
  | pin :: rest =>
      if decide (index mod C = c) then pin :: column_from C c (S index) rest
      else column_from C c (S index) rest
  end.

(** Columns that hold a sequence dealt in turn: row [j] of column [c] is
    position [c + j * C] of the sequence. *)
Definition deals (C : nat) (cols : list (list Pin.t)) (pins : list Pin.t) : Prop :=
  length cols = C
  ∧ ∀ c j, c < C → cols !! c ≫= (λ col, col !! j) = pins !! (c + j * C).

(** Dealing the columns back in turn: the first pin of every column that
    has one, then the second, and so on. *)
Fixpoint round_robin (rounds : nat) (cols : list (list Pin.t)) : list Pin.t :=
  match rounds with
  | 0 => []
  | S n => omap head cols ++ round_robin n (tail <$> cols)
  end.

Definition interleave (cols : list (list Pin.t)) : list Pin.t :=
  round_robin (length (concat cols)) cols.

(** [pieces] is [s] split on [sep]: no piece holds the separator and the
    pieces, with the separator put back between them, are [s]. *)
Definition split_on (sep : ascii) (s : string) (pieces : list string) : Prop :=
  pieces ≠ []
  ∧ Forall (λ piece, JS.occurs sep piece = false) pieces
  ∧ JS.join sep pieces = s.

Definition white_space_free_ends (t : string) : Prop :=
  from_option JS.is_white_space false (JS.first_char t) = false
  ∧ from_option JS.is_white_space false (JS.last_char t) = false.

(** [t] is [piece] without the white space at its two ends. *)
Definition trimmed (piece t : string) : Prop :=
  (∃ before after, piece = before +:+ t +:+ after
                   ∧ JS.all_white_space before = true
                   ∧ JS.all_white_space after = true)
  ∧ white_space_free_ends t.

(** The tags of a tags field: split on commas, trim every piece, discard
    the empty results. *)
Definition tags_of (input : string) (tags : list string) : Prop :=
  ∃ pieces trimmed_pieces,
    split_on "," input pieces
    ∧ Forall2 trimmed pieces trimmed_pieces
    ∧ tags = filter (λ t, t ≠ "") trimmed_pieces.

(** A gateway step fails when its promise rejects or when its answer
    carries an error. *)
Definition failure {A} (p : settled (Response A)) : option Error.t :=
  match p with
  | Rejected e => Some e
  | Fulfilled r => error r
  end.

(** The text shown for an error: its message, or a generic text when it
    has none or an empty one. *)
Definition surfaced_message (e : Error.t) : string :=
  match Error.message e with
  | Some m => if decide (m = "") then "Something went wrong" else m
  | None => "Something went wrong"
  end.

(** The declared type of a file is an image type. *)
Definition image_type (type : string) : Prop := ∃ subtype, type = "image/" +:+ subtype.

(** The pins the free-text filter keeps for a query, given the host's
    lower-casing: the query is empty, or the lower-cased query occurs in
    the lower-cased title, description, tag, username or display name. *)
Definition retains (toLowerCase : Utf16.t → Utf16.t) (q : Utf16.t)
    (pin : Pin.t_ Utf16.t) : Prop :=
  let found (field : Utf16.t) := occurs_in (toLowerCase q) (toLowerCase field) in
  q = []
  ∨ found (Pin.title pin)
  ∨ (∃ d, Pin.description pin = Some d ∧ found d)
  ∨ (∃ tags tag, Pin.tags pin = Some tags ∧ tag ∈ tags ∧ found tag)
  ∨ (∃ author, Pin.profiles pin = Some author ∧ found (Profile.username author))
  ∨ (∃ author name, Pin.profiles pin = Some author
                    ∧ Profile.display_name author = Some name
                    ∧ found name).

End Spec.

(* ===================================================================== *)
(** ** Notions used by the further properties *)
(* ===================================================================== *)

Module Notions.

(** A returned row and the pin the feed holds for it: the row with the
    answer of its author lookup attached. *)
Definition with_author (gw : Gateway) (row pin : Pin.t) : Prop :=
  ∃ r, select_profile gw (Pin.user_id row) = Fulfilled r
       ∧ pin = Pin.with_profiles row (data r).

(** A file that passes the checks made at selection time. *)
Definition acceptable (file : File.t) : Prop :=
  (File.size file ≤ 10485760)%N ∧ Spec.image_type (File.type file).

(** A card's flags agree with the feed's id sets. *)
Definition in_step (pin : Pin.t) (card : PinCard.state) (feed : Home.state) : Prop :=
  (PinCard.isLiked card = true ↔ Pin.id pin ∈ Home.likedPins feed)
  ∧ (PinCard.isSaved card = true ↔ Pin.id pin ∈ Home.savedPins feed).

(** Every character of a string is white space or the separator. *)
Fixpoint blank (sep : ascii) (s : string) : bool :=
  match s with
  | EmptyString => true
  | String c s' => (bool_decide (c = sep) || JS.is_white_space c) && blank sep s'
  end.

End Notions.

(* ===================================================================== *)
(** * Properties *)
(* ===================================================================== *)

(** ** Strings *)

Section JSFacts.
Import JS.

Example toLowerCase_ex : toLowerCase "Sunset At The BEACH" = "sunset at the beach".
Proof. reflexivity. Qed.

Example includes_ex : includes "sunset at the beach" "the b" = true.
Proof. reflexivity. Qed.

Example split_ex : split "," "food, , recipe" = ["food"; " "; " recipe"].
Proof. reflexivity. Qed.

Example split_empty_ex : split "," "" = [""].
Proof. reflexivity. Qed.

Example trim_ex : trim "  two words  " = "two words".
Proof. reflexivity. Qed.

Lemma append_nil (b : string) : "" +:+ b = b.
Proof. reflexivity. Qed.

Lemma append_cons (c : ascii) (a b : string) :
  String c a +:+ b = String c (a +:+ b).
Proof. reflexivity. Qed.

Lemma startsWith_spec (s q : string) :
  startsWith s q = true ↔ ∃ after, s = q +:+ after.
Proof.
  revert s; induction q as [|b q IH]; intros s; simpl.
  - split; [by exists s | done].
  - destruct s as [|a s].
    + split; [done | by intros [? ?]].
    + case_decide as Hab.
      * subst b. rewrite IH. split.
        -- intros [r ->]. by exists r.
        -- intros [r Hr]. rewrite append_cons in Hr.
           injection Hr as ->. by exists r.
      * split; [done | intros [r Hr]; rewrite append_cons in Hr; congruence].
Qed.

End JSFacts.

(** ** The feed's free-text filter *)

Section HomeFilter.
Import Home.

Lemma utf16_startsWith_spec (s q : Utf16.t) :
  Utf16.startsWith s q = true ↔ ∃ after, s = q ++ after.
Proof.
  revert s; induction q as [|b q IH]; intros s; simpl.
  - split; [by exists s | done].
  - destruct s as [|a s].
    + split; [done | by intros [? ?]].
    + case_decide as Hab.
      * subst b. rewrite IH. split.
        -- intros [r ->]. by exists r.
        -- intros [r [= ->]]. by exists r.
      * split; [done | intros [r [= ? _]]; done].
Qed.

Lemma utf16_includes_spec (s q : Utf16.t) :
  Utf16.includes s q = true ↔ Spec.occurs_in q s.
Proof.
  unfold Spec.occurs_in. induction s as [|a s IH].
  - simpl. rewrite orb_false_r, utf16_startsWith_spec. split.
    + intros [r Hr]. by exists [], r.
    + intros (x & y & H). destruct x; [by exists y | done].
  - cbn [Utf16.includes]. rewrite orb_true_iff, utf16_startsWith_spec, IH. split.
    + intros [[r Hr] | (x & y & ->)].
      * by exists [], r.
      * by exists (a :: x), y.
    + intros (x & y & H). destruct x as [|c x].
      * left. by exists y.
      * right. injection H as -> ->. by exists x, y.
Qed.

Lemma includes_query_spec
    (toLowerCase : Utf16.t → Utf16.t) (q : Utf16.t) (field : option Utf16.t) :
  includes_query (Utf16.host toLowerCase) q field = true
  ↔ ∃ s, field = Some s ∧ Spec.occurs_in (toLowerCase q) (toLowerCase s).
Proof.
  destruct field as [s|]; simpl.
  - rewrite utf16_includes_spec. naive_solver.
  - naive_solver.
Qed.

Lemma matches_spec
    (toLowerCase : Utf16.t → Utf16.t) (q : Utf16.t) (pin : Pin.t_ Utf16.t) :
  matches (Utf16.host toLowerCase) q pin = true ↔
    let found (field : Utf16.t) :=
      Spec.occurs_in (toLowerCase q) (toLowerCase field) in
    found (Pin.title pin)
    ∨ (∃ d, Pin.description pin = Some d ∧ found d)
    ∨ (∃ tags tag, Pin.tags pin = Some tags ∧ tag ∈ tags ∧ found tag)
    ∨ (∃ author, Pin.profiles pin = Some author ∧ found (Profile.username author))
    ∨ (∃ author name, Pin.profiles pin = Some author
                      ∧ Profile.display_name author = Some name
                      ∧ found name).
Proof.
  unfold matches. rewrite !orb_true_iff, !includes_query_spec. cbv zeta.
  assert ((match Pin.tags pin with
           | Some tags =>
               existsb (λ tag, includes_query (Utf16.host toLowerCase) q (Some tag)) tags
           | None => false
           end = true)
          ↔ ∃ tags tag, Pin.tags pin = Some tags ∧ tag ∈ tags
                        ∧ Spec.occurs_in (toLowerCase q) (toLowerCase tag)) as ->.
  { destruct (Pin.tags pin) as [tags|]; [|naive_solver].
    rewrite existsb_exists. split.
    - intros (tag & Hin & Hm). apply includes_query_spec in Hm as (s & [= <-] & Hs).
      exists tags, tag. by rewrite list_elem_of_In.
    - intros (? & tag & [= <-] & Hin & Hm). exists tag.
      rewrite <- list_elem_of_In. split; [done|].
      apply includes_query_spec. eauto. }
  destruct (Pin.profiles pin) as [author|]; simpl.
  - destruct (Profile.display_name author) as [name|] eqn:Hn; naive_solver.
  - naive_solver.
Qed.

Lemma filter_sublist {A} (f : A → bool) (l : list A) :
  List.filter f l `sublist_of` l.
Proof.
  induction l as [|x l IH]; simpl; [constructor|].
  destruct (f x); by constructor.
Qed.

(** C1 (amended).  Whatever the host's lower-casing is, the filter keeps a
    pin of the feed exactly when the query is empty, or the lower-cased
    query occurs in the lower-cased title, in the lower-cased description,
    in one of the lower-cased tags, in the lower-cased username of the
    author or in the author's lower-cased display name; the kept pins stay
    in feed order, and an empty query keeps every pin. *)
Theorem filter_keeps_lowered_matches
    (toLowerCase : Utf16.t → Utf16.t) (q : Utf16.t) (pins : list (Pin.t_ Utf16.t)) :
  let kept := filter_pins (Utf16.host toLowerCase) q pins in
  (∀ pin, pin ∈ kept ↔ pin ∈ pins ∧ Spec.retains toLowerCase q pin)
  ∧ kept `sublist_of` pins
  ∧ (q = [] → kept = pins).
Proof.
  unfold filter_pins. simpl. destruct q as [|c q]; simpl.
  - split_and!; try done. intros pin. unfold Spec.retains. naive_solver.
  - split_and!; try done.
    + intros pin. rewrite list_elem_of_In, filter_In, <- list_elem_of_In, matches_spec.
      unfold Spec.retains. naive_solver.
    + apply filter_sublist.
Qed.

(** The feed's effect stores what [filter_pins] gives for the feed's query
    and pins, and does nothing else. *)
Lemma filterEffect_run (st : state) :
  filterEffect st
  = (Eff.Ok tt, setFilteredPins (filter_pins js_host (searchQuery st) (pins st)) st, []).
Proof. done. Qed.

Example filter_ex :
  filteredPins (Eff.state_of (filterEffect
                                (setSearchQuery "SUN" (setPins Sample.feed initial))))
  = [Sample.a]
  ∧ filteredPins (Eff.state_of (filterEffect
                                  (setSearchQuery "ana l" (setPins Sample.feed initial))))
    = Sample.feed.
Proof. split; reflexivity. Qed.

Example greek_filter_ex :
  Utf16.toLowerCase [0x39F; 0x394; 0x39F; 0x3A3]%N = [0x3BF; 0x3B4; 0x3BF; 0x3C2]%N
  ∧ Utf16.toLowerCase [0x3A3; 0x39F; 0x3A3]%N = [0x3C3; 0x3BF; 0x3C2]%N
  ∧ filter_pins (Utf16.host Utf16.toLowerCase) [0x39F; 0x394]%N [Sample.street]
    = [Sample.street].
Proof. split_and!; reflexivity. Qed.

(** C1, as stated, fails: the query of one capital sigma occurs literally
    in the title of the pin, which ends in that letter, and the filter
    still drops the pin, because the title's last letter is lower-cased to
    a final sigma and the query to an ordinary one. *)
Lemma final_sigma_counterexample :
  let q := [Utf16.SIGMA] in
  q ≠ []
  ∧ Spec.occurs_in q (Pin.title Sample.street)
  ∧ Utf16.toLowerCase (Pin.title Sample.street) = [0x3BF; 0x3B4; 0x3BF; 0x3C2]%N
  ∧ Utf16.toLowerCase q = [0x3C3]%N
  ∧ filter_pins (Utf16.host Utf16.toLowerCase) q [Sample.street] = [].
Proof.
  split_and!; try done.
  by exists [0x39F; 0x394; 0x39F]%N, [].
Qed.

End HomeFilter.

(** ** The masonry layout engine *)

Section MasonryColumns.
Import MasonryGrid.

Lemma updateColumns_breakpoint (st : state) :
  Spec.breakpoint (innerWidth st) (columns (updateColumns st))
  ∧ innerWidth (updateColumns st) = innerWidth st
  ∧ listening (updateColumns st) = listening st.
Proof.
  unfold updateColumns, Spec.breakpoint.
  destruct (Z.ltb_spec (innerWidth st) 640);
    [|destruct (Z.ltb_spec (innerWidth st) 1024);
      [|destruct (Z.ltb_spec (innerWidth st) 1280)]];
    simpl; (split; [lia | done]).
Qed.

Lemma last_cons_default {A} (w d : A) (ws : list A) :
  List.last (w :: ws) d = List.last ws w.
Proof.
  assert (∀ (l : list A) x a b, List.last (x :: l) a = List.last (x :: l) b) as Hd.
  { induction l as [|y l IH]; intros x a b; [done|].
    change (List.last (y :: l) a = List.last (y :: l) b). apply IH. }
  destruct ws as [|x ws]; [done|].
  change (List.last (x :: ws) d = List.last (x :: ws) w). apply Hd.
Qed.

Lemma run_resizes (ws : list Z) (st : state) :
  listening st = true →
  Spec.breakpoint (innerWidth st) (columns st) →
  let st' := run (Resize <$> ws) st in
  listening st' = true
  ∧ innerWidth st' = List.last ws (innerWidth st)
  ∧ Spec.breakpoint (innerWidth st') (columns st').
Proof.
  revert st. induction ws as [|w ws IH]; intros st Hl Hb; [done|].
  pose (st1 := mkState w (columns st) (listening st)).
  destruct (updateColumns_breakpoint st1) as (Hb1 & Hw1 & Hl1).
  assert (step st (Resize w) = updateColumns st1) as Hstep.
  { unfold step, st1. simpl. by destruct (listening st). }
  specialize (IH (updateColumns st1)).
  rewrite Hw1, Hl1 in IH. simpl in IH.
  specialize (IH Hl Hb1). cbn [fmap list_fmap run fold_left].
  fold (run (Resize <$> ws) (step st (Resize w))). rewrite Hstep.
  destruct IH as (? & Hw & ?). split_and!; try done.
  rewrite Hw. symmetry. apply last_cons_default.
Qed.

(** C7.  [updateColumns] sets the column count from the viewport width
    alone, by the four breakpoints (below 640: 2, below 1024: 3, below
    1280: 4, otherwise 5); the count is recomputed when the grid mounts
    and at every resize after that, so that after a mount and any
    sequence of resizes it is the count of the current width. *)
Theorem columns_follow_width :
  (∀ st, Spec.breakpoint (innerWidth st) (columns (updateColumns st)))
  ∧ (∀ st1 st2, innerWidth st1 = innerWidth st2 →
                columns (updateColumns st1) = columns (updateColumns st2))
  ∧ (∀ width, Spec.breakpoint width (columns (step (initial width) Mount)))
  ∧ (∀ width ws,
       let st := run (Mount :: (Resize <$> ws)) (initial width) in
       innerWidth st = List.last ws width
       ∧ Spec.breakpoint (innerWidth st) (columns st)).
Proof.
  split_and!.
  - intros st. apply updateColumns_breakpoint.
  - intros st1 st2 Hw. unfold updateColumns. rewrite Hw.
    by repeat case_match.
  - intros width. apply (updateColumns_breakpoint (initial width)).
  - intros width ws.
    destruct (updateColumns_breakpoint (initial width)) as (Hb & Hw & _).
    change (run (Mount :: (Resize <$> ws)) (initial width))
      with (run (Resize <$> ws) (step (initial width) Mount)).
    assert (innerWidth (step (initial width) Mount) = width) as Hw0 by done.
    destruct (run_resizes ws (step (initial width) Mount)) as (_ & Hlast & Hbp).
    + done.
    + by rewrite Hw0.
    + cbv zeta. split; [by rewrite Hlast, Hw0 | done].
Qed.

End MasonryColumns.

Section MasonryDistribution.
Import MasonryGrid.

Lemma mod_succ (C index : nat) :
  0 < C →
  S index mod C = if decide (S (index mod C) = C) then 0 else S (index mod C).
Proof.
  intros HC.
  pose proof (Nat.mod_upper_bound index C ltac:(lia)) as Hr.
  pose proof (Nat.div_mod_eq index C) as Hq.
  case_decide as E; symmetry.
  - apply (Nat.mod_unique _ _ (S (index / C))); nia.
  - apply (Nat.mod_unique _ _ (index / C)); nia.
Qed.

(** The loop appends to column [c] the pins whose position is congruent
    to [c]. *)
Lemma forEach_push_spec (C : nat) (pins : list Pin.t) :
  0 < C →
  ∀ index cols, length cols = C →
    forEach_push C index pins cols
    = Some (imap (λ c col, col ++ Spec.column_from C c index pins) cols).
Proof.
  intros HC. induction pins as [|pin rest IH]; intros index cols Hlen.
  - simpl. f_equal. apply list_eq. intros i.
    rewrite list_lookup_imap. destruct (cols !! i); simpl; [|done].
    by rewrite app_nil_r.
  - cbn [forEach_push]. unfold js_mod. destruct C as [|C']; [lia|].
    set (C := S C') in *.
    pose proof (Nat.mod_upper_bound index C ltac:(lia)) as Hk.
    destruct (lookup_lt_is_Some_2 cols (index mod C) ltac:(lia)) as [col Hcol].
    rewrite Hcol, IH by (by rewrite length_insert).
    f_equal. apply list_eq. intros i. rewrite !list_lookup_imap.
    cbn [Spec.column_from].
    destruct (decide (index mod C = i)) as [<-|Hne].
    + rewrite list_lookup_insert_eq, Hcol by lia. simpl.
      by rewrite <- app_assoc.
    + by rewrite list_lookup_insert_ne.
Qed.

Lemma distributeColumns_columns (C : nat) (pins : list Pin.t) :
  0 < C →
  distributeColumns C pins
  = Some (imap (λ c (_ : list Pin.t), Spec.column_from C c 0 pins)
            (replicate C [])).
Proof.
  intros HC. unfold distributeColumns.
  rewrite forEach_push_spec by (done || apply length_replicate).
  f_equal. apply list_eq. intros i. rewrite !list_lookup_imap.
  destruct (replicate C [] !! i) as [col|] eqn:Hi; [|done].
  by apply lookup_replicate_1 in Hi as [-> _].
Qed.

Lemma lookup_columns (C c : nat) (pins : list Pin.t) :
  c < C →
  imap (λ c (_ : list Pin.t), Spec.column_from C c 0 pins) (replicate C []) !! c
  = Some (Spec.column_from C c 0 pins).
Proof.
  intros Hc. by rewrite list_lookup_imap, lookup_replicate_2.
Qed.

Lemma lookup_cons_S {A} (x : A) (l : list A) (n : nat) :
  (x :: l) !! S n = l !! n.
Proof. done. Qed.

(** Row [j] of the pins congruent to [c], read from position [index] on,
    is [j] whole rounds after the first position congruent to [c]. *)
Lemma column_from_lookup (C c : nat) (pins : list Pin.t) :
  c < C →
  ∀ index j,
    Spec.column_from C c index pins !! j
    = pins !! ((if decide (index mod C ≤ c) then c - index mod C
                else C + c - index mod C) + j * C).
Proof.
  intros Hc. induction pins as [|pin rest IH]; intros index j; [done|].
  pose proof (Nat.mod_upper_bound index C ltac:(lia)) as Hr.
  pose proof (mod_succ C index ltac:(lia)) as Hs.
  cbn [Spec.column_from]. destruct (decide (index mod C = c)) as [E|E].
  - rewrite decide_True by (rewrite E; lia). destruct j as [|j].
    + rewrite E. by replace (c - c + 0 * C) with 0 by lia.
    + rewrite lookup_cons_S, IH, Hs, E. clear Hs E Hr.
      replace (c - c + S j * C) with (S (C - 1 + j * C)) by lia.
      rewrite lookup_cons_S. f_equal.
      repeat case_decide; lia.
  - rewrite IH, Hs. clear Hs.
    generalize dependent (index mod C). intros r Hr E.
    set (a := if decide (r ≤ c) then c - r else C + c - r).
    assert (0 < a) as Ha by (unfold a; case_decide; lia).
    replace (a + j * C) with (S (a - 1 + j * C)) by lia.
    rewrite lookup_cons_S. f_equal. unfold a.
    repeat case_decide; lia.
Qed.

Lemma column_from_sublist (C c index : nat) (pins : list Pin.t) :
  Spec.column_from C c index pins `sublist_of` pins.
Proof.
  revert index. induction pins as [|pin rest IH]; intros index; simpl.
  - constructor.
  - case_decide; by constructor.
Qed.

(** What [distributeColumns] returns for a positive column count. *)
Lemma distributeColumns_deals (C : nat) (pins : list Pin.t) :
  0 < C →
  ∃ cols, distributeColumns C pins = Some cols
          ∧ Spec.deals C cols pins
          ∧ Forall (λ col, col `sublist_of` pins) cols.
Proof.
  intros HC. eexists. split; [by apply distributeColumns_columns|].
  split; [split|].
  - by rewrite length_imap, length_replicate.
  - intros c j Hc. rewrite lookup_columns by done. simpl.
    rewrite column_from_lookup by done.
    rewrite Nat.Div0.mod_0_l, decide_True by lia. f_equal. lia.
  - apply Forall_forall. intros col Hin.
    apply list_elem_of_lookup in Hin as [c Hin].
    rewrite list_lookup_imap in Hin.
    destruct (replicate C [] !! c); simplify_eq/=.
    apply column_from_sublist.
Qed.

Lemma step_columns_positive (st : state) (ev : event) :
  0 < columns st → 0 < columns (step st ev).
Proof.
  intros H. destruct ev as [|w|]; simpl; [| |done].
  - unfold updateColumns. repeat case_match; simpl; lia.
  - destruct (listening st); [|done].
    unfold updateColumns. repeat case_match; simpl; lia.
Qed.

Lemma run_columns_positive (evs : list event) (st : state) :
  0 < columns st → 0 < columns (run evs st).
Proof.
  revert st. induction evs as [|ev evs IH]; intros st H; [done|].
  apply IH, step_columns_positive, H.
Qed.

Lemma deals_position (C : nat) (cols : list (list Pin.t)) (pins : list Pin.t) :
  0 < C → Spec.deals C cols pins →
  ∀ i, cols !! (i mod C) ≫= (λ col, col !! (i / C)) = pins !! i.
Proof.
  intros HC [_ H] i.
  rewrite H by (apply Nat.mod_upper_bound; lia).
  f_equal. pose proof (Nat.div_mod_eq i C). lia.
Qed.

(** C2.  For every column count the layout engine can hold (the initial
    one or one set by a mount or a resize), [distributeColumns] returns
    that many columns, the pin at input position [i] is at row [i / C]
    of column [i mod C], row [j] of column [c] holds input position
    [c + j * C], and every column lists its pins in input order. *)
Theorem distributeColumns_round_robin
    (width : Z) (evs : list event) (pins : list Pin.t) :
  let C := columns (run evs (initial width)) in
  ∃ cols, distributeColumns C pins = Some cols
          ∧ length cols = C
          ∧ (∀ i, cols !! (i mod C) ≫= (λ col, col !! (i / C)) = pins !! i)
          ∧ Spec.deals C cols pins
          ∧ Forall (λ col, col `sublist_of` pins) cols.
Proof.
  intros C.
  assert (0 < C) as HC by (apply run_columns_positive; simpl; lia).
  destruct (distributeColumns_deals C pins HC) as (cols & Hd & Hdeal & Hsub).
  exists cols. split_and!; try done.
  - apply Hdeal.
  - by apply deals_position.
Qed.

Lemma concat_insert_app {A} (cols : list (list A)) (k : nat) (col x : list A) :
  cols !! k = Some col →
  concat (<[k := col ++ x]> cols) ≡ₚ concat cols ++ x.
Proof.
  revert k. induction cols as [|c cs IH]; intros k Hk; [done|].
  destruct k as [|k]; simpl in *.
  - injection Hk as ->. rewrite <- !app_assoc.
    apply Permutation_app_head, Permutation_app_comm.
  - rewrite IH by done. by rewrite app_assoc.
Qed.

Lemma forEach_push_perm (C : nat) (pins : list Pin.t) :
  ∀ index cols cols',
    forEach_push C index pins cols = Some cols' →
    concat cols' ≡ₚ concat cols ++ pins.
Proof.
  induction pins as [|pin rest IH]; intros index cols cols' H; simpl in H.
  - injection H as <-. by rewrite app_nil_r.
  - destruct (js_mod index C) as [k|]; [|done].
    destruct (cols !! k) as [col|] eqn:Hk; [|done].
    rewrite (IH _ _ _ H), concat_insert_app by done.
    by rewrite <- app_assoc.
Qed.

Lemma sum_list_lengths {A} (cols : list (list A)) :
  sum_list (length <$> cols) = length (concat cols).
Proof.
  induction cols as [|c cs IH]; simpl; [done|].
  rewrite length_app. f_equal. exact IH.
Qed.

Lemma heads_take (cols : list (list Pin.t)) :
  ∀ pins : list Pin.t,
    (∀ c, c < length cols → cols !! c ≫= head = pins !! c) →
    omap head cols = take (length cols) pins.
Proof.
  induction cols as [|col cols IH]; intros pins H; [done|].
  pose proof (H 0 ltac:(simpl; lia)) as H0.
  change ((col :: cols) !! 0 ≫= head) with (head col) in H0.
  change (omap head (col :: cols))
    with (match head col with
          | Some y => y :: omap head cols
          | None => omap head cols
          end).
  rewrite H0. destruct pins as [|p ps].
  - rewrite (IH []), !take_nil; [done|].
    intros c Hc. pose proof (H (S c) ltac:(simpl; lia)) as HS.
    rewrite lookup_nil in *. exact HS.
  - change (take (length (col :: cols)) (p :: ps))
      with (p :: take (length cols) ps).
    change ((p :: ps) !! 0) with (Some p). f_equal. apply IH.
    intros c Hc. exact (H (S c) ltac:(simpl; lia)).
Qed.

Lemma deals_heads (C : nat) (cols : list (list Pin.t)) (pins : list Pin.t) :
  Spec.deals C cols pins → omap head cols = take C pins.
Proof.
  intros [Hlen H]. rewrite <- Hlen. apply heads_take.
  intros c Hc. specialize (H c 0 ltac:(lia)).
  replace (c + 0 * C) with c in H by lia. rewrite <- H.
  destruct (cols !! c) as [col|]; simpl; [|done]. apply head_lookup.
Qed.

Lemma deals_tails (C : nat) (cols : list (list Pin.t)) (pins : list Pin.t) :
  Spec.deals C cols pins → Spec.deals C (tail <$> cols) (drop C pins).
Proof.
  intros [Hlen H]. split; [by rewrite length_fmap|].
  intros c j Hc. rewrite list_lookup_fmap, lookup_drop.
  replace (C + (c + j * C)) with (c + S j * C) by lia.
  rewrite <- (H c (S j)) by done.
  destruct (cols !! c) as [col|]; simpl; [|done]. apply lookup_tail.
Qed.

Lemma round_robin_deals (C : nat) :
  0 < C →
  ∀ rounds cols pins,
    Spec.deals C cols pins → length pins ≤ rounds →
    Spec.round_robin rounds cols = pins.
Proof.
  intros HC. induction rounds as [|n IH]; intros cols pins Hd Hn.
  - destruct pins; [done | simpl in Hn; lia].
  - cbn [Spec.round_robin].
    rewrite (deals_heads C cols pins Hd).
    rewrite (IH _ (drop C pins) (deals_tails _ _ _ Hd)).
    + apply take_drop.
    + rewrite length_drop. lia.
Qed.

(** C10.  For a positive column count the columns returned by
    [distributeColumns] partition the input: put end to end they are a
    rearrangement of the input (every occurrence of a pin is in one
    column, once), their lengths add up to the input length, and dealing
    them back round-robin gives the input in its original order. *)
Theorem distributeColumns_partition (C : nat) (pins : list Pin.t) :
  0 < C →
  ∃ cols, distributeColumns C pins = Some cols
          ∧ length cols = C
          ∧ concat cols ≡ₚ pins
          ∧ sum_list (length <$> cols) = length pins
          ∧ Spec.interleave cols = pins.
Proof.
  intros HC.
  destruct (distributeColumns_deals C pins HC) as (cols & Hd & Hdeal & _).
  assert (concat cols ≡ₚ pins) as Hperm.
  { unfold distributeColumns in Hd. apply forEach_push_perm in Hd.
    rewrite Hd. clear. by induction C. }
  exists cols. split_and!; try done.
  - apply Hdeal.
  - by rewrite sum_list_lengths, Hperm.
  - unfold Spec.interleave. apply (round_robin_deals C HC); [done|].
    by rewrite Hperm.
Qed.

Example distributeColumns_ex :
  distributeColumns 3 Sample.feed
  = Some [[Sample.a; Sample.d]; [Sample.b; Sample.e]; [Sample.c]].
Proof. reflexivity. Qed.

Example distributeColumns_zero_ex : distributeColumns 0 Sample.feed = None.
Proof. reflexivity. Qed.

Lemma distributeColumns_partition_witness :
  0 < 3
  ∧ ∃ cols, distributeColumns 3 Sample.feed = Some cols
            ∧ length cols = 3
            ∧ concat cols ≡ₚ Sample.feed
            ∧ sum_list (length <$> cols) = length Sample.feed
            ∧ Spec.interleave cols = Sample.feed.
Proof.
  split; [lia | apply (distributeColumns_partition 3 Sample.feed); lia].
Defined.

End MasonryDistribution.

(** ** Pin creation: tags *)

Section Tags.
Import JS CreatePin.

Lemma join_cons_char (sep c : ascii) (piece : string) (rest : list string) :
  join sep (String c piece :: rest) = String c (join sep (piece :: rest)).
Proof.
  destruct rest as [|q rest]; [done|].
  change (join sep (String c piece :: q :: rest))
    with (String c piece +:+ String sep (join sep (q :: rest))).
  by rewrite append_cons.
Qed.

Lemma split_nonempty (sep : ascii) (s : string) : split sep s ≠ [].
Proof.
  destruct s as [|c s]; simpl; [done|].
  case_decide; [done|]. by destruct (split sep s).
Qed.

Lemma split_spec (sep : ascii) (s : string) : Spec.split_on sep s (split sep s).
Proof.
  split; [apply split_nonempty|].
  induction s as [|c s [IH1 IH2]]; simpl.
  - split; [by repeat constructor | done].
  - pose proof (split_nonempty sep s) as Hne. case_decide as Hc.
    + subst c. split; [by constructor|].
      destruct (split sep s) as [|piece rest]; [done|].
      change (join sep ("" :: piece :: rest))
        with ("" +:+ String sep (join sep (piece :: rest))).
      by rewrite append_nil, IH2.
    + destruct (split sep s) as [|piece rest]; [done|].
      split.
      * apply Forall_cons in IH1 as [Hp Hrest]. constructor; [|done].
        simpl. by rewrite decide_False.
      * by rewrite join_cons_char, IH2.
Qed.

Lemma trimStart_spec (s : string) :
  ∃ w, s = w +:+ trimStart s
       ∧ all_white_space w = true
       ∧ from_option is_white_space false (first_char (trimStart s)) = false.
Proof.
  induction s as [|c s (w & Hs & Hw & Hf)]; simpl.
  - by exists "".
  - destruct (is_white_space c) eqn:Hc.
    + exists (String c w). rewrite append_cons, <- Hs. simpl. by rewrite Hc, Hw.
    + exists "". simpl. by rewrite Hc.
Qed.

Lemma trimEnd_spec (t : string) :
  ∃ w, t = trimEnd t +:+ w
       ∧ all_white_space w = true
       ∧ from_option is_white_space false (last_char (trimEnd t)) = false.
Proof.
  induction t as [|c t (w & Ht & Hw & Hl)]; simpl.
  - by exists "".
  - destruct (trimEnd t) as [|d u] eqn:Hu.
    + rewrite append_nil in Ht. subst w.
      destruct (is_white_space c) eqn:Hc.
      * exists (String c t). rewrite append_nil. simpl. by rewrite Hc, Hw.
      * exists t. simpl. by rewrite Hc.
    + exists w. rewrite append_cons, <- Ht. done.
Qed.

Lemma trimEnd_first_char (t : string) :
  from_option is_white_space false (first_char t) = false →
  from_option is_white_space false (first_char (trimEnd t)) = false.
Proof.
  destruct t as [|c t]; simpl; [done|]. intros Hc.
  destruct (trimEnd t); [by rewrite Hc | done].
Qed.

Lemma trim_spec (s : string) : Spec.trimmed s (trim s).
Proof.
  unfold trim.
  destruct (trimStart_spec s) as (w1 & Hs & Hw1 & Hf).
  destruct (trimEnd_spec (trimStart s)) as (w2 & Ht & Hw2 & Hl).
  split; [|split; [by apply trimEnd_first_char | done]].
  exists w1, w2. by rewrite <- Ht.
Qed.

Lemma filter_nonempty (l : list string) :
  List.filter (λ tag, 0 <? String.length tag) l = filter (λ t, t ≠ "") l.
Proof.
  induction l as [|t l IH]; [done|]. simpl. rewrite IH.
  destruct t; simpl.
  - by rewrite filter_cons_False by naive_solver.
  - by rewrite filter_cons_True by done.
Qed.

Lemma parse_tags_spec (input : string) : Spec.tags_of input (parse_tags input).
Proof.
  exists (split "," input), (trim <$> split "," input). split_and!.
  - apply split_spec.
  - apply Forall2_fmap_r, Forall_Forall2_diag, Forall_forall.
    intros piece _. apply trim_spec.
  - apply filter_nonempty.
Qed.

Example parse_tags_ex : parse_tags "food, , recipe" = ["food"; "recipe"].
Proof. reflexivity. Qed.

Example parse_tags_blank_ex : parse_tags "" = [].
Proof. reflexivity. Qed.

End Tags.

(** ** Pin creation: file selection and submission *)

Section Creation.
Import JS CreatePin.

Lemma error_description_surfaced (e : Error.t) :
  error_description e = Spec.surfaced_message e.
Proof.
  unfold error_description, Spec.surfaced_message, or_else.
  by destruct (Error.message e) as [[|c m]|].
Qed.

Lemma handleSubmit_guard (gw : Gateway) (now : N) (user : option User.t) (st : state) :
  user = None ∨ imageFile st = None →
  handleSubmit gw now user st = (Eff.Ok tt, st, []).
Proof.
  unfold handleSubmit, Eff.bind, Eff.get, Eff.ret.
  intros [-> | ->]; [done|]. by destruct user.
Qed.

(** What a submission does once the guard has passed. *)
Lemma handleSubmit_run (gw : Gateway) (now : N) (u : User.t) (file : File.t) (st : state) :
  imageFile st = Some file →
  let path := fileName u now file in
  let row := pin_row u (formData st) (getPublicUrl gw path) in
  handleSubmit gw now (Some u) st
  = (Eff.Ok tt, setLoading false st,
     Upload path file ::
     match Spec.failure (upload gw path file) with
     | Some e => [Toast "Error creating pin" (Spec.surfaced_message e) true]
     | None =>
         GetPublicUrl path :: InsertPin row ::
         match Spec.failure (insert_pin gw row) with
         | Some e => [Toast "Error creating pin" (Spec.surfaced_message e) true]
         | None => [Toast "Pin created!" "Your pin has been shared successfully." false;
                    Navigate "/"]
         end
     end).
Proof.
  intros Himg path row.
  unfold handleSubmit, Eff.bind, Eff.get, Eff.try_finally, Eff.try_catch,
    Eff.modify, Eff.emit, Eff.throw_if_error, Eff.await.
  rewrite Himg. fold path. fold row. unfold Spec.failure.
  destruct (upload gw path file) as [[d1 [e1|]]|e1]; simpl;
    rewrite ?error_description_surfaced; try done.
  destruct (insert_pin gw row) as [[d2 [e2|]]|e2]; simpl;
    rewrite ?error_description_surfaced; done.
Qed.

(** C3.  A pin record that a submission inserts carries the tags obtained
    from the tags field by splitting it on commas, trimming the white space
    of every piece and discarding the empty results. *)
Theorem created_pin_tags
    (gw : Gateway) (now : N) (user : option User.t) (st : state) (row : NewPin.t) :
  InsertPin row ∈ Eff.log_of (handleSubmit gw now user st) →
  NewPin.tags row = parse_tags (tags (formData st))
  ∧ Spec.tags_of (tags (formData st)) (NewPin.tags row).
Proof.
  intros Hin.
  assert (NewPin.tags row = parse_tags (tags (formData st))) as Htags.
  { destruct user as [u|];
      [|rewrite handleSubmit_guard in Hin by auto; by apply elem_of_nil in Hin].
    destruct (imageFile st) as [file|] eqn:Himg;
      [|rewrite handleSubmit_guard in Hin by auto; by apply elem_of_nil in Hin].
    rewrite (handleSubmit_run gw now u file st Himg) in Hin.
    unfold Eff.log_of in Hin. simpl in Hin.
    repeat case_match; set_solver. }
  split; [done|]. rewrite Htags. apply parse_tags_spec.
Qed.

Lemma created_pin_tags_witness :
  let row := pin_row Sample.user (formData Sample.tagged_draft)
               (getPublicUrl Sample.gateway (fileName Sample.user 1700000000000 Sample.photo)) in
  InsertPin row
    ∈ Eff.log_of (handleSubmit Sample.gateway 1700000000000 (Some Sample.user) Sample.tagged_draft)
  ∧ NewPin.tags row = ["food"; "recipe"]
  ∧ Spec.tags_of "food, , recipe" (NewPin.tags row).
Proof.
  intros row.
  assert (InsertPin row
            ∈ Eff.log_of (handleSubmit Sample.gateway 1700000000000
                            (Some Sample.user) Sample.tagged_draft)) as Hin.
  { rewrite (handleSubmit_run _ _ _ Sample.photo) by reflexivity.
    unfold Eff.log_of. simpl. do 2 right. left. }
  split; [exact Hin|].
  destruct (created_pin_tags _ _ _ _ _ Hin) as [_ Hspec].
  split; [reflexivity | exact Hspec].
Defined.

(** C5 (amended).  Once a user and an image are present, a submission
    uploads the image to the path [<user id>/<timestamp>.<extension>],
    resolves the public URL of that path, parses the tags and inserts the
    pin record, in this order.  If the upload or the insertion fails, no
    later step runs and a notification shows the error's message, or the
    text "Something went wrong" when the error has no message or an empty
    one.  The title, description, tags and selected image are the same
    after the submission as before, and navigation to the feed happens
    exactly when both the upload and the insertion succeeded. *)
Theorem submission_sequence
    (gw : Gateway) (now : N) (u : User.t) (file : File.t) (st : state) :
  imageFile st = Some file →
  let path := fileName u now file in
  let row := pin_row u (formData st) (getPublicUrl gw path) in
  let run := handleSubmit gw now (Some u) st in
  (∃ extension, path = User.id u +:+ "/" +:+ pretty now +:+ "." +:+ extension)
  ∧ NewPin.image_url row = getPublicUrl gw path
  ∧ NewPin.tags row = parse_tags (tags (formData st))
  ∧ Eff.log_of run
    = Upload path file ::
      match Spec.failure (upload gw path file) with
      | Some e => [Toast "Error creating pin" (Spec.surfaced_message e) true]
      | None =>
          GetPublicUrl path :: InsertPin row ::
          match Spec.failure (insert_pin gw row) with
          | Some e => [Toast "Error creating pin" (Spec.surfaced_message e) true]
          | None => [Toast "Pin created!" "Your pin has been shared successfully." false;
                     Navigate "/"]
          end
      end
  ∧ (Navigate "/" ∈ Eff.log_of run
     ↔ Spec.failure (upload gw path file) = None
       ∧ Spec.failure (insert_pin gw row) = None)
  ∧ formData (Eff.state_of run) = formData st
  ∧ imageFile (Eff.state_of run) = imageFile st
  ∧ imagePreview (Eff.state_of run) = imagePreview st
  ∧ loading (Eff.state_of run) = false.
Proof.
  intros Himg path row run. unfold run.
  rewrite (handleSubmit_run gw now u file st Himg).
  fold path. fold row. unfold Eff.log_of, Eff.state_of. simpl.
  split_and!; try done.
  - by eexists.
  - destruct (Spec.failure (upload gw path file));
      [set_solver|destruct (Spec.failure (insert_pin gw row)); set_solver].
Qed.

Lemma submission_sequence_witness :
  imageFile Sample.tagged_draft = Some Sample.photo
  ∧ Eff.log_of (handleSubmit Sample.gateway 1700000000000 (Some Sample.user)
                  Sample.tagged_draft)
    = [Upload "u1/1700000000000.jpeg" Sample.photo;
       GetPublicUrl "u1/1700000000000.jpeg";
       InsertPin (NewPin.mk "u1" "Beach" None
                    "https://cdn/u1/1700000000000.jpeg" ["food"; "recipe"]);
       Toast "Pin created!" "Your pin has been shared successfully." false;
       Navigate "/"].
Proof.
  split; [reflexivity|].
  destruct (submission_sequence Sample.gateway 1700000000000 Sample.user
              Sample.photo Sample.tagged_draft eq_refl)
    as (_ & _ & _ & Hlog & _).
  rewrite Hlog. vm_compute. reflexivity.
Defined.

(** C5, as stated, fails: an upload that rejects with an error whose
    message is empty is answered by a notification whose text is not that
    message. *)
Lemma submission_message_counterexample :
  let run := handleSubmit Sample.failing_gateway 1700000000000 (Some Sample.user)
               Sample.tagged_draft in
  let path := fileName Sample.user 1700000000000 Sample.photo in
  upload Sample.failing_gateway path Sample.photo = Rejected Sample.silent_error
  ∧ Error.message Sample.silent_error = Some ""
  ∧ Eff.log_of run
    = [Upload path Sample.photo;
       Toast "Error creating pin" "Something went wrong" true]
  ∧ ¬ (∃ title destructive, Toast title "" destructive ∈ Eff.log_of run).
Proof.
  assert (Eff.log_of (handleSubmit Sample.failing_gateway 1700000000000
                        (Some Sample.user) Sample.tagged_draft)
          = [Upload (fileName Sample.user 1700000000000 Sample.photo) Sample.photo;
             Toast "Error creating pin" "Something went wrong" true]) as Hlog.
  { by rewrite (handleSubmit_run _ _ _ Sample.photo) by reflexivity. }
  split_and!; try done.
  intros (title & destructive & Hin). rewrite Hlog in Hin. set_solver.
Qed.

(** What [handleImageUpload] does with a selected file. *)
Lemma handleImageUpload_run (file : File.t) (st : state) :
  handleImageUpload (Some file) st
  = if (size_limit <? File.size file)%N then
      (Eff.Ok tt, st,
       [Toast "File too large" "Please choose an image smaller than 10MB" true])
    else if negb (startsWith (File.type file) "image/") then
      (Eff.Ok tt, st, [Toast "Invalid file type" "Please choose an image file" true])
    else (Eff.Ok tt, setImageFile (Some file) st, [ReadAsDataURL file]).
Proof.
  unfold handleImageUpload. by repeat case_match.
Qed.

Lemma startsWith_image (type : string) :
  startsWith type "image/" = true ↔ Spec.image_type type.
Proof. apply startsWith_spec. Qed.

(** C4 (amended).  A selected file larger than 10 MiB, or whose declared
    type is not an image type, is rejected without any gateway operation:
    one error notification is shown and the component's state, the selected
    image included, is left as it was.  Any other file becomes the selected
    image, a read of it is started, and the preview is the result of that
    read once it completes. *)
Theorem image_selection (file : File.t) (st : state) :
  let run := handleImageUpload (Some file) st in
  Forall (λ op, is_gateway op = false) (Eff.log_of run)
  ∧ ((10485760 < File.size file)%N ∨ ¬ Spec.image_type (File.type file) →
     Eff.state_of run = st
     ∧ ∃ title description, Eff.log_of run = [Toast title description true])
  ∧ ((File.size file ≤ 10485760)%N ∧ Spec.image_type (File.type file) →
     Eff.state_of run = setImageFile (Some file) st
     ∧ Eff.log_of run = [ReadAsDataURL file]
     ∧ ∀ result,
         let loaded := Eff.state_of (reader_onload result (Eff.state_of run)) in
         imagePreview loaded = result ∧ imageFile loaded = Some file).
Proof.
  intros run. unfold run. rewrite handleImageUpload_run.
  change size_limit with 10485760%N.
  destruct (N.ltb_spec 10485760 (File.size file)) as [Hbig|Hsmall].
  { split_and!.
    - by repeat constructor.
    - intros _. split; [done | by eexists _, _].
    - intros [? _]. lia. }
  destruct (startsWith (File.type file) "image/") eqn:Htype; simpl.
  - apply startsWith_image in Htype. split_and!.
    + by repeat constructor.
    + intros [? | ?]; [lia | done].
    + intros _. done.
  - assert (¬ Spec.image_type (File.type file)) as Hnot.
    { rewrite <- startsWith_image. by rewrite Htype. }
    split_and!.
    + by repeat constructor.
    + intros _. split; [done | by eexists _, _].
    + intros [_ ?]. done.
Qed.

Example image_selection_ex :
  Eff.state_of (handleImageUpload (Some Sample.photo) initial)
  = setImageFile (Some Sample.photo) initial
  ∧ Eff.log_of (handleImageUpload (Some Sample.document) initial)
    = [Toast "Invalid file type" "Please choose an image file" true].
Proof. split; reflexivity. Qed.

(** C4, as stated, fails: rejecting an oversized file leaves a previously
    selected image in place instead of clearing the selection. *)
Lemma rejected_selection_counterexample :
  let st := setImageFile (Some Sample.photo) initial in
  let run := handleImageUpload (Some Sample.huge_photo) st in
  (10485760 < File.size Sample.huge_photo)%N
  ∧ Eff.log_of run
    = [Toast "File too large" "Please choose an image smaller than 10MB" true]
  ∧ imageFile (Eff.state_of run) = Some Sample.photo
  ∧ imageFile (Eff.state_of run) ≠ None.
Proof. split_and!; done. Qed.

End Creation.

(** ** The feed's callbacks and mount effect *)

Section FeedCallbacks.
Import Home.

Lemma handleDelete_pins (pinId : string) (st : state) :
  pins (Eff.state_of (handleDelete pinId st))
  = filter (λ pin, Pin.id pin ≠ pinId) (pins st).
Proof.
  unfold handleDelete, Eff.state_of, Eff.modify. simpl.
  induction (pins st) as [|pin l IH]; [done|]. simpl. rewrite IH.
  destruct (decide (Pin.id pin = pinId)) as [E|E].
  - rewrite bool_decide_eq_true_2 by done. simpl.
    by rewrite filter_cons_False by naive_solver.
  - rewrite bool_decide_eq_false_2 by done. simpl.
    by rewrite filter_cons_True by done.
Qed.

Lemma filter_keep_all {A} (P : A → Prop) `{!∀ x, Decision (P x)} (l : list A) :
  Forall P l → filter P l = l.
Proof.
  induction 1 as [|x l Hx Hl IH]; [done|].
  by rewrite filter_cons_True, IH.
Qed.

Lemma filter_remove_unique (pinId : string) (before after : list Pin.t) (pin : Pin.t) :
  Pin.id pin = pinId →
  Forall (λ other, Pin.id other ≠ pinId) (before ++ after) →
  filter (λ pin, Pin.id pin ≠ pinId) (before ++ pin :: after) = before ++ after.
Proof.
  intros Hid [Hb Ha]%Forall_app.
  rewrite filter_app, filter_cons_False by naive_solver.
  f_equal; by apply filter_keep_all.
Qed.

(** C9.  The feed's like and save callbacks change one id set only: the
    pin id is in the set afterwards exactly when the new flag says so, every
    other id is in it exactly when it was before, and the pin list, the
    other id set and the search query are untouched.  The delete callback
    keeps, in order, the pins whose id differs from the given one, so a
    feed in which that id occurs once loses exactly that pin.  None of the
    three performs any operation. *)
Theorem feed_callbacks_frame (pinId : string) (flag : bool) (st : state) :
  let liked := handleLike pinId flag st in
  let saved := handleSave pinId flag st in
  let deleted := handleDelete pinId st in
  ((∀ x, x ∈ likedPins (Eff.state_of liked)
         ↔ if decide (x = pinId) then flag = true else x ∈ likedPins st)
   ∧ pins (Eff.state_of liked) = pins st
   ∧ filteredPins (Eff.state_of liked) = filteredPins st
   ∧ savedPins (Eff.state_of liked) = savedPins st
   ∧ searchQuery (Eff.state_of liked) = searchQuery st
   ∧ Eff.log_of liked = [])
  ∧ ((∀ x, x ∈ savedPins (Eff.state_of saved)
           ↔ if decide (x = pinId) then flag = true else x ∈ savedPins st)
     ∧ pins (Eff.state_of saved) = pins st
     ∧ filteredPins (Eff.state_of saved) = filteredPins st
     ∧ likedPins (Eff.state_of saved) = likedPins st
     ∧ searchQuery (Eff.state_of saved) = searchQuery st
     ∧ Eff.log_of saved = [])
  ∧ ((∀ pin, pin ∈ pins (Eff.state_of deleted) ↔ pin ∈ pins st ∧ Pin.id pin ≠ pinId)
     ∧ pins (Eff.state_of deleted) `sublist_of` pins st
     ∧ (∀ before pin after,
          pins st = before ++ pin :: after →
          Pin.id pin = pinId →
          Forall (λ other, Pin.id other ≠ pinId) (before ++ after) →
          pins (Eff.state_of deleted) = before ++ after)
     ∧ likedPins (Eff.state_of deleted) = likedPins st
     ∧ savedPins (Eff.state_of deleted) = savedPins st
     ∧ searchQuery (Eff.state_of deleted) = searchQuery st
     ∧ Eff.log_of deleted = []).
Proof.
  intros liked saved deleted. split_and!; try done.
  - intros x. unfold liked, handleLike, Eff.state_of, Eff.modify. simpl.
    destruct flag; case_decide; set_solver.
  - intros x. unfold saved, handleSave, Eff.state_of, Eff.modify. simpl.
    destruct flag; case_decide; set_solver.
  - intros pin. unfold deleted. rewrite handleDelete_pins.
    rewrite list_elem_of_filter. naive_solver.
  - unfold deleted. rewrite handleDelete_pins. apply sublist_filter.
  - intros before pin after Hpins Hid Hothers. unfold deleted.
    rewrite handleDelete_pins, Hpins. by apply filter_remove_unique.
Qed.

Example handleDelete_ex :
  pins (Eff.state_of (handleDelete "c" (setPins Sample.feed initial)))
  = [Sample.a; Sample.b; Sample.d; Sample.e].
Proof. reflexivity. Qed.

End FeedCallbacks.

Section FeedMount.
Import Home.

Lemma emit_all_run {St} (ops : list Op) (s : St) :
  EffExtra.emit_all ops s = (Eff.Ok tt, s, ops).
Proof.
  induction ops as [|op ops IH]; [done|].
  cbn [EffExtra.emit_all]. unfold Eff.bind, Eff.emit. by rewrite IH.
Qed.

(** What [fetchPins] does, by the answers of the gateway. *)
Lemma fetchPins_run (gw : Gateway) (st : state) :
  fetchPins gw st
  = match select_pins gw with
    | Fulfilled (mkResponse rows None) =>
        let pinsData := default [] rows in
        let lookups := (λ pin, SelectProfile (Pin.user_id pin)) <$> pinsData in
        match EffExtra.promise_all (attach_profile gw <$> pinsData) with
        | Fulfilled pinsWithProfiles =>
            (Eff.Ok tt, setLoading false (setPins pinsWithProfiles st),
             SelectPins :: lookups)
        | Rejected _ =>
            (Eff.Ok tt, setLoading false st,
             SelectPins :: lookups ++ [Toast "Error" "Failed to load pins" true])
        end
    | _ =>
        (Eff.Ok tt, setLoading false st,
         [SelectPins; Toast "Error" "Failed to load pins" true])
    end.
Proof.
  unfold fetchPins, Eff.try_finally, Eff.try_catch, Eff.bind, Eff.emit,
    Eff.await, Eff.throw_if_error, Eff.modify.
  destruct (select_pins gw) as [[rows [e|]]|e]; simpl; try done.
  rewrite emit_all_run.
  destruct (EffExtra.promise_all _) as [loaded|e]; simpl;
    by rewrite ?app_nil_r.
Qed.



Example anonymous_feed_ex :
  let st := Eff.state_of (mountEffect Sample.gateway None initial) in
  (Pin.id <$> pins st) = ["a"; "b"]
  ∧ (Pin.profiles <$> pins st) = [Some Sample.author; Some Sample.author]
  ∧ likedPins st = ∅
  ∧ Eff.log_of (mountEffect Sample.gateway None initial)
    = [SelectPins; SelectProfile "u1"; SelectProfile "u1"].
Proof. split_and!; reflexivity. Qed.

End FeedMount.

(** ** The like and save handlers of a pin card *)

Section CardClicks.
Import PinCard.

(** What a click on [Like] does for a signed-in user, by the answer of
    the gateway. *)
Lemma handleLike_run
    (gw : Gateway) (u : User.t) (pin : Pin.t) (card : state) (feed : Home.state) :
  let uid := User.id u in
  let pid := Pin.id pin in
  let op := if isLiked card then DeleteRow likes uid pid else InsertRow likes uid pid in
  let answer :=
    if isLiked card then delete_row gw likes uid pid else insert_row gw likes uid pid in
  handleLike gw (Some u) (in_feed pin feed) (card, feed)
  = match answer with
    | Fulfilled _ =>
        (Eff.Ok tt,
         (setIsLiked (negb (isLiked card)) card,
          Eff.state_of (Home.handleLike pid (negb (isLiked card)) feed)),
         [op])
    | Rejected _ =>
        (Eff.Ok tt, (card, feed),
         [op; Toast "Error" "Failed to update like status" true])
    end.
Proof.
  unfold handleLike, Eff.try_catch, Eff.bind, Eff.get, Eff.emit, Eff.await,
    on_card, call_optional, EffExtra.lift_snd, Eff.modify. simpl.
  destruct (isLiked card); simpl.
  - by destruct (delete_row gw likes (User.id u) (Pin.id pin)).
  - by destruct (insert_row gw likes (User.id u) (Pin.id pin)).
Qed.

Lemma handleSave_run
    (gw : Gateway) (u : User.t) (pin : Pin.t) (card : state) (feed : Home.state) :
  let uid := User.id u in
  let pid := Pin.id pin in
  let op := if isSaved card then DeleteRow saves uid pid else InsertRow saves uid pid in
  let answer :=
    if isSaved card then delete_row gw saves uid pid else insert_row gw saves uid pid in
  handleSave gw (Some u) (in_feed pin feed) (card, feed)
  = match answer with
    | Fulfilled _ =>
        (Eff.Ok tt,
         (setIsSaved (negb (isSaved card)) card,
          Eff.state_of (Home.handleSave pid (negb (isSaved card)) feed)),
         [op])
    | Rejected _ =>
        (Eff.Ok tt, (card, feed),
         [op; Toast "Error" "Failed to update save status" true])
    end.
Proof.
  unfold handleSave, Eff.try_catch, Eff.bind, Eff.get, Eff.emit, Eff.await,
    on_card, call_optional, EffExtra.lift_snd, Eff.modify. simpl.
  destruct (isSaved card); simpl.
  - by destruct (delete_row gw saves (User.id u) (Pin.id pin)).
  - by destruct (insert_row gw saves (User.id u) (Pin.id pin)).
Qed.

(** C6 (amended).  A like click of a signed-in user performs exactly one
    gateway operation: the deletion of the (user, pin) like row when the
    card's flag is set, its insertion otherwise.  When the awaited call
    returns, with or without an error in its answer, the flag becomes the
    negation of its prior value and the feed's callback is told so; an
    error in the answer does not bring the flag back.  When the awaited
    call throws, the flag keeps its prior value, the feed is not told and
    an error notification is shown.  A save click does the same on the
    saves relation and the other flag. *)
Theorem card_click
    (gw : Gateway) (u : User.t) (pin : Pin.t) (card : state) (feed : Home.state) :
  let uid := User.id u in
  let pid := Pin.id pin in
  let like := handleLike gw (Some u) (in_feed pin feed) (card, feed) in
  let like_op :=
    if isLiked card then DeleteRow likes uid pid else InsertRow likes uid pid in
  let like_answer :=
    if isLiked card then delete_row gw likes uid pid else insert_row gw likes uid pid in
  let save := handleSave gw (Some u) (in_feed pin feed) (card, feed) in
  let save_op :=
    if isSaved card then DeleteRow saves uid pid else InsertRow saves uid pid in
  let save_answer :=
    if isSaved card then delete_row gw saves uid pid else insert_row gw saves uid pid in
  (List.filter is_gateway (Eff.log_of like) = [like_op]
   ∧ isSaved (fst (Eff.state_of like)) = isSaved card
   ∧ match like_answer with
     | Fulfilled _ =>
         isLiked (fst (Eff.state_of like)) = negb (isLiked card)
         ∧ snd (Eff.state_of like)
           = Eff.state_of (Home.handleLike pid (negb (isLiked card)) feed)
         ∧ Eff.log_of like = [like_op]
     | Rejected _ =>
         Eff.state_of like = (card, feed)
         ∧ Eff.log_of like
           = [like_op; Toast "Error" "Failed to update like status" true]
     end)
  ∧ (List.filter is_gateway (Eff.log_of save) = [save_op]
     ∧ isLiked (fst (Eff.state_of save)) = isLiked card
     ∧ match save_answer with
       | Fulfilled _ =>
           isSaved (fst (Eff.state_of save)) = negb (isSaved card)
           ∧ snd (Eff.state_of save)
             = Eff.state_of (Home.handleSave pid (negb (isSaved card)) feed)
           ∧ Eff.log_of save = [save_op]
       | Rejected _ =>
           Eff.state_of save = (card, feed)
           ∧ Eff.log_of save
             = [save_op; Toast "Error" "Failed to update save status" true]
       end).
Proof.
  intros uid pid like like_op like_answer save save_op save_answer.
  unfold like, save. rewrite handleLike_run, handleSave_run.
  fold uid pid like_op like_answer save_op save_answer.
  assert (is_gateway like_op = true) as Hl by (unfold like_op; by destruct (isLiked card)).
  assert (is_gateway save_op = true) as Hs by (unfold save_op; by destruct (isSaved card)).
  split.
  - destruct like_answer; unfold Eff.log_of, Eff.state_of; simpl; by rewrite Hl.
  - destruct save_answer; unfold Eff.log_of, Eff.state_of; simpl; by rewrite Hs.
Qed.

Example like_with_error_answer_ex :
  let gw := mkGateway (select_pins Sample.gateway) (select_profile Sample.gateway)
              (select_pin_ids Sample.gateway) (delete_row Sample.gateway)
              (fun _ _ _ => Fulfilled (mkResponse None (Some Sample.silent_error)))
              (delete_pin Sample.gateway) (upload Sample.gateway)
              (getPublicUrl Sample.gateway) (insert_pin Sample.gateway) in
  let card := mkState false false false in
  let run := handleLike gw (Some Sample.user) (in_feed Sample.a Home.initial)
               (card, Home.initial) in
  isLiked (fst (Eff.state_of run)) = true
  ∧ Home.likedPins (snd (Eff.state_of run)) = {[ "a" ]}
  ∧ Eff.log_of run = [InsertRow likes "u1" "a"].
Proof. split_and!; [reflexivity | | reflexivity]. cbn. set_solver. Qed.

(** C6, as stated, fails: when the awaited gateway call throws, the flag
    after the click is its prior value, not the negation. *)
Lemma card_click_counterexample :
  let card := mkState false false false in
  let run := handleLike Sample.failing_gateway (Some Sample.user)
               (in_feed Sample.a Home.initial) (card, Home.initial) in
  Eff.log_of run
  = [InsertRow likes "u1" "a"; Toast "Error" "Failed to update like status" true]
  ∧ isLiked (fst (Eff.state_of run)) = isLiked card
  ∧ isLiked (fst (Eff.state_of run)) ≠ negb (isLiked card).
Proof. split_and!; done. Qed.

Example owner_delete_ex :
  let feed := Home.setPins Sample.feed Home.initial in
  let run := handleDelete Sample.gateway (Some Sample.user) (in_feed Sample.c feed)
               (mkState false false false, feed) in
  Home.pins (snd (Eff.state_of run)) = [Sample.a; Sample.b; Sample.d; Sample.e]
  ∧ Eff.log_of run
    = [DeletePin "c"; Toast "Pin deleted" "Your pin has been deleted successfully" false].
Proof. split; reflexivity. Qed.

End CardClicks.

(* ===================================================================== *)
(** * Further properties of the code *)
(* ===================================================================== *)

(** ** Masonry grid: the column count over the life of the component *)

Section MasonryLife.
Import MasonryGrid.

Lemma updateColumns_range (st : state) : 2 ≤ columns (updateColumns st) ≤ 5.
Proof. unfold updateColumns. repeat case_match; simpl; lia. Qed.

Lemma step_range (st : state) (ev : event) :
  2 ≤ columns st ≤ 5 → 2 ≤ columns (step st ev) ≤ 5.
Proof.
  intros H. destruct ev as [|w|]; simpl; [apply updateColumns_range| |done].
  destruct (listening st); [apply updateColumns_range | done].
Qed.

(** X1.  Whatever happens to the grid (mounts, resizes to any width,
    unmounts, in any order), its column count stays between 2 and 5. *)
Theorem columns_between_2_and_5 (width : Z) (evs : list event) :
  2 ≤ columns (run evs (initial width)) ≤ 5.
Proof.
  assert (∀ st, 2 ≤ columns st ≤ 5 → 2 ≤ columns (run evs st) ≤ 5) as H.
  { induction evs as [|ev evs IH]; intros st Hst; [done|].
    apply IH, step_range, Hst. }
  apply H. simpl. lia.
Qed.

(** X2.  A wider viewport never gets fewer columns. *)
Theorem columns_monotone (st1 st2 : state) :
  (innerWidth st1 ≤ innerWidth st2)%Z →
  columns (updateColumns st1) ≤ columns (updateColumns st2).
Proof.
  intros H. unfold updateColumns.
  destruct (Z.ltb_spec (innerWidth st1) 640), (Z.ltb_spec (innerWidth st2) 640),
    (Z.ltb_spec (innerWidth st1) 1024), (Z.ltb_spec (innerWidth st2) 1024),
    (Z.ltb_spec (innerWidth st1) 1280), (Z.ltb_spec (innerWidth st2) 1280);
    simpl; lia.
Qed.

Lemma columns_monotone_witness :
  (innerWidth (initial 700) ≤ innerWidth (initial 1300))%Z
  ∧ columns (updateColumns (initial 700)) ≤ columns (updateColumns (initial 1300)).
Proof.
  split; [simpl; lia | apply (columns_monotone (initial 700) (initial 1300)); simpl; lia].
Defined.

(** X3.  Once the grid has unmounted, its listener is gone: later resizes
    change the window's width but neither the column count nor the
    listener. *)
Theorem unmounted_ignores_resizes (st : state) (ws : list Z) :
  let st' := run (Resize <$> ws) (step st Unmount) in
  columns st' = columns st
  ∧ listening st' = false
  ∧ innerWidth st' = List.last ws (innerWidth st).
Proof.
  assert (∀ ws s, listening s = false →
            columns (run (Resize <$> ws) s) = columns s
            ∧ listening (run (Resize <$> ws) s) = false
            ∧ innerWidth (run (Resize <$> ws) s) = List.last ws (innerWidth s)) as H.
  { clear. induction ws as [|w ws IH]; intros s Hs; [done|].
    cbn [fmap list_fmap run fold_left].
    fold (run (Resize <$> ws) (step s (Resize w))).
    assert (step s (Resize w) = mkState w (columns s) false) as ->.
    { unfold step. simpl. by rewrite Hs. }
    destruct (IH (mkState w (columns s) false) eq_refl) as (Hc & Hl & Hw).
    split_and!; try done. rewrite Hw. simpl. symmetry. apply last_cons_default. }
  apply (H ws (step st Unmount)). done.
Qed.

End MasonryLife.

(** ** Masonry grid: shape of the distribution *)

Section MasonryShape.
Import MasonryGrid.

(** X4.  [distributeColumns] fails (by a TypeError on the first [push])
    exactly when there are no columns but there is a pin; with no pin it
    returns the [columns] empty columns. *)
Theorem distributeColumns_fails_iff (columns : nat) (pins : list Pin.t) :
  (distributeColumns columns pins = None ↔ columns = 0 ∧ pins ≠ [])
  ∧ distributeColumns columns [] = Some (replicate columns []).
Proof.
  split; [|done]. split.
  - intros Hnone. destruct columns as [|C'].
    + split; [done|]. by intros ->.
    + destruct (distributeColumns_deals (S C') pins ltac:(lia)) as (cols & Hc & _).
      congruence.
  - intros [-> Hne]. by destruct pins.
Qed.

(** The length of a column that holds every [C]-th pin. *)
Lemma deals_length (C c : nat) (cols : list (list Pin.t)) (pins : list Pin.t)
    (col : list Pin.t) :
  Spec.deals C cols pins → cols !! c = Some col →
  ∀ j, j < length col ↔ c + j * C < length pins.
Proof.
  intros [Hlen H] Hc j.
  assert (c < C) as HcC by (rewrite <- Hlen; by eapply lookup_lt_Some).
  specialize (H c j HcC). rewrite Hc in H. simpl in H.
  rewrite <- !lookup_lt_is_Some. by rewrite H.
Qed.

(** X5.  For a positive column count the columns are balanced: a column
    is never longer than a column to its left, and never shorter by more
    than one pin; a column is empty exactly when there are too few pins to
    reach it. *)
Theorem columns_balanced (C : nat) (pins : list Pin.t) :
  0 < C →
  ∃ cols, distributeColumns C pins = Some cols
          ∧ (∀ c1 c2 col1 col2,
               c1 ≤ c2 → cols !! c1 = Some col1 → cols !! c2 = Some col2 →
               length col2 ≤ length col1 ≤ S (length col2))
          ∧ (∀ c col, cols !! c = Some col → (col = [] ↔ length pins ≤ c)).
Proof.
  intros HC.
  destruct (distributeColumns_deals C pins HC) as (cols & Hd & Hdeal & _).
  exists cols. split; [done|]. split.
  - intros c1 c2 col1 col2 Hle H1 H2.
    pose proof (deals_length C c1 cols pins col1 Hdeal H1) as L1.
    pose proof (deals_length C c2 cols pins col2 Hdeal H2) as L2.
    assert (c2 < C) as Hc2.
    { destruct Hdeal as [<- _]. by eapply lookup_lt_Some. }
    split.
    + destruct (decide (length col2 ≤ length col1)) as [|Hn]; [done|].
      assert (length col1 < length col2) as Hlt by lia.
      apply L2 in Hlt. pose proof (proj2 (L1 (length col1))). lia.
    + destruct (decide (length col1 ≤ S (length col2))) as [|Hn]; [done|].
      assert (S (length col2) < length col1) as Hlt by lia.
      apply L1 in Hlt. pose proof (proj2 (L2 (length col2))).
      simpl in Hlt. lia.
  - intros c col Hc.
    pose proof (deals_length C c cols pins col Hdeal Hc 0) as L.
    destruct col; simpl in *; split; intros; try done; lia.
Qed.

Lemma columns_balanced_witness :
  0 < 3
  ∧ ∃ cols, distributeColumns 3 Sample.feed = Some cols
            ∧ (∀ c1 c2 col1 col2,
                 c1 ≤ c2 → cols !! c1 = Some col1 → cols !! c2 = Some col2 →
                 length col2 ≤ length col1 ≤ S (length col2))
            ∧ (∀ c col, cols !! c = Some col → (col = [] ↔ length Sample.feed ≤ c)).
Proof.
  split; [lia | apply (columns_balanced 3 Sample.feed); lia].
Defined.

End MasonryShape.

(** ** Feed: loading the pins *)

Section FeedLoading.
Import Home.

Lemma promise_all_attach_inv (gw : Gateway) (rows loaded : list Pin.t) :
  EffExtra.promise_all (attach_profile gw <$> rows) = Fulfilled loaded →
  Forall2 (Notions.with_author gw) rows loaded.
Proof.
  revert loaded. induction rows as [|row rows IH]; intros loaded H.
  - injection H as <-. constructor.
  - cbn [fmap list_fmap EffExtra.promise_all] in H.
    unfold attach_profile at 1 in H.
    destruct (select_profile gw (Pin.user_id row)) as [r|e] eqn:Hr; [|done].
    fold (fmap (attach_profile gw) rows) in H.
    destruct (EffExtra.promise_all (attach_profile gw <$> rows)) as [l|e]; [|done].
    injection H as <-. constructor; [by exists r | by apply IH].
Qed.

Lemma filter_gateway_lookups (rows : list Pin.t) :
  List.filter is_gateway ((λ pin, SelectProfile (Pin.user_id pin)) <$> rows)
  = (λ pin, SelectProfile (Pin.user_id pin)) <$> rows.
Proof. induction rows as [|row rows IH]; [done|]. simpl. by f_equal. Qed.

(** X6.  [fetchPins] is all or nothing and always ends the loading state.
    Either it shows the notification "Failed to load pins" and leaves the
    pin list as it was (the pin query failed, or one profile lookup threw),
    or it shows no notification and the pin list is the returned rows, in
    their order, each with the answer of its author lookup attached (a
    query answered without data gives the empty list).  It never touches
    the id sets or the search query and lets no exception escape. *)
Theorem fetchPins_all_or_nothing (gw : Gateway) (st : state) :
  let run := fetchPins gw st in
  Eff.result_of run = Eff.Ok tt
  ∧ loading (Eff.state_of run) = false
  ∧ likedPins (Eff.state_of run) = likedPins st
  ∧ savedPins (Eff.state_of run) = savedPins st
  ∧ searchQuery (Eff.state_of run) = searchQuery st
  ∧ ((Toast "Error" "Failed to load pins" true ∈ Eff.log_of run
      ∧ pins (Eff.state_of run) = pins st)
     ∨ ((∀ title description destructive,
           Toast title description destructive ∉ Eff.log_of run)
        ∧ ∃ rows, select_pins gw = Fulfilled (mkResponse rows None)
                  ∧ Forall2 (Notions.with_author gw) (default [] rows)
                      (pins (Eff.state_of run)))).
Proof.
  intros run. unfold run. rewrite fetchPins_run.
  destruct (select_pins gw) as [[rows [e|]]|e] eqn:Hq; simpl;
    try (split_and!; [done..|left; split; [set_solver|done]]).
  destruct (EffExtra.promise_all _) as [loaded|e] eqn:Hall; simpl.
  - split_and!; [done..|]. right. split.
    + intros title description destructive.
      unfold Eff.log_of. simpl.
      rewrite elem_of_cons, list_elem_of_fmap. naive_solver.
    + exists rows. split; [done|]. by apply promise_all_attach_inv.
  - split_and!; [done..|]. left. split; [|done].
    unfold Eff.log_of. simpl. set_solver.
Qed.

Example fetchPins_without_data_ex :
  let gw := mkGateway (Fulfilled (mkResponse None None))
              (select_profile Sample.gateway) (select_pin_ids Sample.gateway)
              (delete_row Sample.gateway) (insert_row Sample.gateway)
              (delete_pin Sample.gateway) (upload Sample.gateway)
              (getPublicUrl Sample.gateway) (insert_pin Sample.gateway) in
  fetchPins gw (setPins Sample.feed initial)
  = (Eff.Ok tt, setLoading false (setPins [] initial), [SelectPins]).
Proof. reflexivity. Qed.

(** X7.  When the pin query is answered without error, [fetchPins] issues
    one profile lookup per returned row, in row order and for the row's
    owner, after the pin query and nothing else on the gateway, whether or
    not the lookups succeed. *)
Theorem fetchPins_lookups (gw : Gateway) (st : state) (rows : option (list Pin.t)) :
  select_pins gw = Fulfilled (mkResponse rows None) →
  List.filter is_gateway (Eff.log_of (fetchPins gw st))
  = SelectPins :: ((λ row, SelectProfile (Pin.user_id row)) <$> default [] rows).
Proof.
  intros Hq. rewrite fetchPins_run, Hq. simpl.
  destruct (EffExtra.promise_all _) as [loaded|e]; unfold Eff.log_of; simpl;
    f_equal.
  - apply filter_gateway_lookups.
  - rewrite List.filter_app, filter_gateway_lookups. simpl. apply app_nil_r.
Qed.

Lemma fetchPins_lookups_witness :
  select_pins Sample.gateway
  = Fulfilled (mkResponse (Some [Pin.with_profiles Sample.a None;
                                 Pin.with_profiles Sample.b None]) None)
  ∧ List.filter is_gateway (Eff.log_of (fetchPins Sample.gateway initial))
    = [SelectPins; SelectProfile "u1"; SelectProfile "u1"].
Proof.
  split; [reflexivity|].
  apply (fetchPins_lookups Sample.gateway initial
           (Some [Pin.with_profiles Sample.a None; Pin.with_profiles Sample.b None])).
  reflexivity.
Defined.

End FeedLoading.

(** ** Feed: the signed-in user's likes and saves *)

Section FeedInteractions.
Import Home.

(** What [fetchUserInteractions] does for a signed-in user, by the answers
    of the gateway. *)
Lemma fetchUserInteractions_run (gw : Gateway) (u : User.t) (st : state) :
  let uid := User.id u in
  let store (set : gset string → state → state) (r : Response (list string)) s :=
    match data r with
    | Some ids => set (list_to_set ids) s
    | None => s
    end in
  fetchUserInteractions gw (Some u) st
  = match select_pin_ids gw likes uid with
    | Rejected _ => (Eff.Ok tt, st, [SelectPinIds likes uid; ConsoleError])
    | Fulfilled r1 =>
        match select_pin_ids gw saves uid with
        | Rejected _ =>
            (Eff.Ok tt, store setLikedPins r1 st,
             [SelectPinIds likes uid; SelectPinIds saves uid; ConsoleError])
        | Fulfilled r2 =>
            (Eff.Ok tt, store setSavedPins r2 (store setLikedPins r1 st),
             [SelectPinIds likes uid; SelectPinIds saves uid])
        end
    end.
Proof.
  unfold fetchUserInteractions, Eff.try_catch, Eff.bind, Eff.emit, Eff.await,
    Eff.modify, Eff.ret. simpl.
  destruct (select_pin_ids gw likes (User.id u)) as [[d1 e1]|e1]; simpl; [|done].
  destruct d1 as [ids1|]; simpl;
    (destruct (select_pin_ids gw saves (User.id u)) as [[d2 e2]|e2]; simpl; [|done]);
    by destruct d2.
Qed.

(** X8.  [fetchUserInteractions] of a signed-in user queries the likes and
    then the saves.  If the likes query throws, the saves are not queried
    and nothing changes; if only the saves query throws, the liked set is
    already stored.  A query answered with ids replaces the set by exactly
    those ids; a query answered without data (an error in the answer
    included) leaves the set as it was.  Failures are only logged to the
    console: no notification is shown, no exception escapes, and the pin
    list, the search query and the loading flag are not touched. *)
Theorem fetchUserInteractions_outcome (gw : Gateway) (u : User.t) (st : state) :
  let uid := User.id u in
  let run := fetchUserInteractions gw (Some u) st in
  let st' := Eff.state_of run in
  let stored (r : Response (list string)) (before after : gset string) :=
    match data r with
    | Some ids => ∀ x, x ∈ after ↔ x ∈ ids
    | None => after = before
    end in
  Eff.result_of run = Eff.Ok tt
  ∧ pins st' = pins st ∧ filteredPins st' = filteredPins st
  ∧ searchQuery st' = searchQuery st ∧ loading st' = loading st
  ∧ match select_pin_ids gw likes uid with
    | Rejected _ =>
        st' = st ∧ Eff.log_of run = [SelectPinIds likes uid; ConsoleError]
    | Fulfilled r1 =>
        stored r1 (likedPins st) (likedPins st')
        ∧ match select_pin_ids gw saves uid with
          | Rejected _ =>
              savedPins st' = savedPins st
              ∧ Eff.log_of run
                = [SelectPinIds likes uid; SelectPinIds saves uid; ConsoleError]
          | Fulfilled r2 =>
              stored r2 (savedPins st) (savedPins st')
              ∧ Eff.log_of run = [SelectPinIds likes uid; SelectPinIds saves uid]
          end
    end.
Proof.
  intros uid run st' stored. unfold st', run.
  rewrite fetchUserInteractions_run. fold uid. unfold stored.
  destruct (select_pin_ids gw likes uid) as [[d1 e1]|e1]; [|done].
  destruct (select_pin_ids gw saves uid) as [[d2 e2]|e2];
    destruct d1 as [ids1|]; try destruct d2 as [ids2|];
    unfold Eff.state_of, Eff.log_of, Eff.result_of; simpl;
    split_and!; try done; intros x; by rewrite elem_of_list_to_set.
Qed.

Example fetchUserInteractions_ex :
  let st := Eff.state_of (fetchUserInteractions Sample.gateway (Some Sample.user) initial) in
  likedPins st = {[ "a" ]} ∧ savedPins st = {[ "b" ]}
  ∧ Eff.log_of (fetchUserInteractions Sample.failing_gateway (Some Sample.user) initial)
    = [SelectPinIds likes "u1"; ConsoleError].
Proof. split_and!; [cbn; set_solver | cbn; set_solver | reflexivity]. Qed.

Lemma mountEffect_signed_in (gw : Gateway) (u : User.t) (st : state) :
  Eff.state_of (mountEffect gw (Some u) st)
  = Eff.state_of (fetchUserInteractions gw (Some u) (Eff.state_of (fetchPins gw st))).
Proof.
  unfold mountEffect. generalize (fetchUserInteractions gw (Some u)). intros f.
  unfold EffExtra.fork, Eff.bind, Eff.state_of.
  destruct (fetchPins gw st) as [[r1 s1] l1]. simpl.
  by destruct (f s1) as [[r2 s2] l2].
Qed.

Lemma fetchPins_keeps_sets (gw : Gateway) (st : state) :
  likedPins (Eff.state_of (fetchPins gw st)) = likedPins st
  ∧ savedPins (Eff.state_of (fetchPins gw st)) = savedPins st.
Proof.
  rewrite fetchPins_run.
  destruct (select_pins gw) as [[rows [e|]]|e]; simpl; try done.
  by destruct (EffExtra.promise_all _).
Qed.

(** X9.  After the mount effect of a signed-in feed whose likes and saves
    queries are answered with ids, a card is rendered as liked exactly when
    its pin's id is among the liked ids, and as saved exactly when it is
    among the saved ids, whatever the feed held before. *)
Theorem mounted_card_flags
    (gw : Gateway) (u : User.t) (st : state) (pin : Pin.t)
    (liked saved : list string) (e1 e2 : option Error.t) :
  select_pin_ids gw likes (User.id u) = Fulfilled (mkResponse (Some liked) e1) →
  select_pin_ids gw saves (User.id u) = Fulfilled (mkResponse (Some saved) e2) →
  let card := PinCard.in_feed pin (Eff.state_of (mountEffect gw (Some u) st)) in
  (PinCard.liked card = true ↔ Pin.id pin ∈ liked)
  ∧ (PinCard.saved card = true ↔ Pin.id pin ∈ saved).
Proof.
  intros H1 H2 card. unfold card. rewrite mountEffect_signed_in.
  rewrite fetchUserInteractions_run, H1, H2.
  unfold PinCard.in_feed, Eff.state_of. simpl.
  rewrite !bool_decide_eq_true, !elem_of_list_to_set. done.
Qed.

Lemma mounted_card_flags_witness :
  select_pin_ids Sample.gateway likes (User.id Sample.user)
  = Fulfilled (mkResponse (Some ["a"]) None)
  ∧ select_pin_ids Sample.gateway saves (User.id Sample.user)
    = Fulfilled (mkResponse (Some ["b"]) None)
  ∧ (PinCard.liked (PinCard.in_feed Sample.a
        (Eff.state_of (mountEffect Sample.gateway (Some Sample.user) initial))) = true
     ↔ Pin.id Sample.a ∈ ["a"]).
Proof.
  split; [reflexivity|]. split; [reflexivity|].
  apply (mounted_card_flags Sample.gateway Sample.user initial Sample.a
           ["a"] ["b"] None None eq_refl eq_refl).
Defined.

End FeedInteractions.

(** ** Feed: how the callbacks and the filter compose *)

Section FeedAlgebra.
Import Home.

(** X10.  For the feed's like callback the last call for a pin decides,
    whatever was reported before; calling it twice with the same flag is
    the same as calling it once; the same holds for the save callback, and
    a like and a save callback can be swapped. *)
Theorem callbacks_last_call_decides
    (pinId other : string) (first last : bool) (st : state) :
  Eff.state_of (handleLike pinId last (Eff.state_of (handleLike pinId first st)))
  = Eff.state_of (handleLike pinId last st)
  ∧ Eff.state_of (handleSave pinId last (Eff.state_of (handleSave pinId first st)))
    = Eff.state_of (handleSave pinId last st)
  ∧ Eff.state_of (handleSave other last (Eff.state_of (handleLike pinId first st)))
    = Eff.state_of (handleLike pinId first (Eff.state_of (handleSave other last st))).
Proof.
  unfold handleLike, handleSave, Eff.state_of, Eff.modify,
    setLikedPins, setSavedPins. simpl.
  split_and!; [| |done]; f_equal; destruct first, last;
    apply set_eq; intros x; destruct (decide (x = pinId)); set_solver.
Qed.

End FeedAlgebra.

(** ** Feed: the filter and the delete callback *)

Section FilterAlgebra.
Import Home.

Lemma filter_filter_swap {A} (f g : A → bool) (l : list A) :
  List.filter f (List.filter g l) = List.filter g (List.filter f l).
Proof.
  induction l as [|x l IH]; [done|]. simpl.
  destruct (f x) eqn:Hf, (g x) eqn:Hg; simpl; rewrite ?Hf, ?Hg, IH; done.
Qed.

(** X13.  Deleting and filtering can be done in either order: the filtered
    list of the feed after a delete callback is the filtered list of the
    feed before it, without the pins of the deleted id. *)
Theorem filter_after_delete (pinId : string) (st : state) :
  let after := Eff.state_of (handleDelete pinId st) in
  filteredPins (Eff.state_of (filterEffect after))
  = List.filter (λ pin, negb (bool_decide (Pin.id pin = pinId)))
      (filteredPins (Eff.state_of (filterEffect st))).
Proof.
  unfold handleDelete, filterEffect, filter_pins, Eff.state_of, Eff.bind, Eff.get,
    Eff.modify.
  simpl. destruct (JS.truthy (searchQuery st)); simpl; [|done].
  apply filter_filter_swap.
Qed.

End FilterAlgebra.

(** ** Navigation bar: the search text reaches the feed on submission only *)

Section NavbarSearch.

(** X14.  Typing in the search input changes the bar's own text only: the
    feed, its query and its filtered list stay as they were and nothing is
    performed.  Submitting the search form hands the text typed so far to
    the feed, whose query becomes that text while its pins, its filtered
    list and its id sets stay; the submission itself performs nothing. *)
Theorem search_reaches_feed_on_submit
    (text : string) (bar : Navbar.state) (feed : Home.state) :
  let typed := Navbar.setLocalSearchQuery text (bar, feed) in
  let submitted := Navbar.handleSearch (Navbar.in_feed feed) (Eff.state_of typed) in
  let feed' := snd (Eff.state_of submitted) in
  snd (Eff.state_of typed) = feed
  ∧ Eff.log_of typed = []
  ∧ Home.searchQuery feed' = text
  ∧ Home.pins feed' = Home.pins feed
  ∧ Home.filteredPins feed' = Home.filteredPins feed
  ∧ Home.likedPins feed' = Home.likedPins feed
  ∧ Home.savedPins feed' = Home.savedPins feed
  ∧ Navbar.localSearchQuery (fst (Eff.state_of submitted)) = text
  ∧ Eff.log_of submitted = [].
Proof. intros typed submitted feed'. split_and!; done. Qed.

End NavbarSearch.

(** ** Pin card: deleting, and staying in step with the feed *)

Section CardAndFeed.
Import PinCard.

Lemma handleDelete_run
    (gw : Gateway) (user : option User.t) (pin : Pin.t) (card : state)
    (feed : Home.state) :
  handleDelete gw user (in_feed pin feed) (card, feed)
  = if isOwner user (in_feed pin feed) then
      match delete_pin gw (Pin.id pin) with
      | Fulfilled _ =>
          (Eff.Ok tt, (card, Eff.state_of (Home.handleDelete (Pin.id pin) feed)),
           [DeletePin (Pin.id pin);
            Toast "Pin deleted" "Your pin has been deleted successfully" false])
      | Rejected _ =>
          (Eff.Ok tt, (card, feed),
           [DeletePin (Pin.id pin); Toast "Error" "Failed to delete pin" true])
      end
    else (Eff.Ok tt, (card, feed), []).
Proof.
  unfold handleDelete. destruct (isOwner user (in_feed pin feed)); simpl; [|done].
  unfold Eff.try_catch, Eff.bind, Eff.emit, Eff.await, call_optional,
    EffExtra.lift_snd. simpl.
  by destruct (delete_pin gw (Pin.id pin)).
Qed.

(** X15.  The card's delete handler does nothing at all unless the
    session's user owns the pin.  For the owner it issues one deletion of
    the pin.  When the awaited call returns, even with an error in its
    answer, the feed drops the pins of that id, keeps the others in order
    and a success notification is shown; when the call throws, the feed is
    unchanged and an error notification is shown.  The card's own flags
    never change and no exception escapes. *)
Theorem card_delete
    (gw : Gateway) (user : option User.t) (pin : Pin.t) (card : state)
    (feed : Home.state) :
  let run := handleDelete gw user (in_feed pin feed) (card, feed) in
  let owner := ∃ u, user = Some u ∧ User.id u = Pin.user_id pin in
  Eff.result_of run = Eff.Ok tt
  ∧ fst (Eff.state_of run) = card
  ∧ (¬ owner → Eff.state_of run = (card, feed) ∧ Eff.log_of run = [])
  ∧ (owner →
     List.filter is_gateway (Eff.log_of run) = [DeletePin (Pin.id pin)]
     ∧ match delete_pin gw (Pin.id pin) with
       | Fulfilled _ =>
           Home.pins (snd (Eff.state_of run))
           = filter (λ other, Pin.id other ≠ Pin.id pin) (Home.pins feed)
           ∧ Eff.log_of run
             = [DeletePin (Pin.id pin);
                Toast "Pin deleted" "Your pin has been deleted successfully" false]
       | Rejected _ =>
           snd (Eff.state_of run) = feed
           ∧ Eff.log_of run
             = [DeletePin (Pin.id pin); Toast "Error" "Failed to delete pin" true]
       end).
Proof.
  intros run owner. unfold run. rewrite handleDelete_run.
  assert (isOwner user (in_feed pin feed) = true ↔ owner) as Hown.
  { unfold isOwner, owner. destruct user as [u|]; simpl.
    - rewrite bool_decide_eq_true. naive_solver.
    - naive_solver. }
  destruct (isOwner user (in_feed pin feed)).
  - assert owner as Ho by (by apply Hown).
    destruct (delete_pin gw (Pin.id pin)) as [r|e];
      unfold Eff.state_of, Eff.log_of, Eff.result_of; simpl;
      (split_and!; [done | done | done |]); intros _; split_and!; try done.
    apply handleDelete_pins.
  - assert (¬ owner) as Hn by (rewrite <- Hown; done).
    split_and!; done.
Qed.

Example stranger_delete_ex :
  handleDelete Sample.gateway (Some (User.mk "u2")) (in_feed Sample.c Home.initial)
    (mkState false false false, Home.initial)
  = (Eff.Ok tt, (mkState false false false, Home.initial), []).
Proof. reflexivity. Qed.

Lemma handleLike_anonymous
    (gw : Gateway) (pin : Pin.t) (card : state) (feed : Home.state) :
  handleLike gw None (in_feed pin feed) (card, feed) = (Eff.Ok tt, (card, feed), []).
Proof. done. Qed.

Lemma handleSave_anonymous
    (gw : Gateway) (pin : Pin.t) (card : state) (feed : Home.state) :
  handleSave gw None (in_feed pin feed) (card, feed) = (Eff.Ok tt, (card, feed), []).
Proof. done. Qed.

Lemma click_keeps_card_in_step
    (gw : Gateway) (user : option User.t) (pin : Pin.t) (card : state)
    (feed : Home.state) :
  Notions.in_step pin card feed →
  Notions.in_step pin
    (fst (Eff.state_of (handleLike gw user (in_feed pin feed) (card, feed))))
    (snd (Eff.state_of (handleLike gw user (in_feed pin feed) (card, feed))))
  ∧ Notions.in_step pin
      (fst (Eff.state_of (handleSave gw user (in_feed pin feed) (card, feed))))
      (snd (Eff.state_of (handleSave gw user (in_feed pin feed) (card, feed)))).
Proof.
  intros [Hl Hs]. unfold Notions.in_step.
  destruct user as [u|];
    [|rewrite handleLike_anonymous, handleSave_anonymous; by split].
  rewrite handleLike_run, handleSave_run.
  unfold Home.handleLike, Home.handleSave, Eff.state_of, Eff.modify. simpl.
  split.
  - destruct (isLiked card) eqn:El;
      [destruct (delete_row gw likes (User.id u) (Pin.id pin))
      |destruct (insert_row gw likes (User.id u) (Pin.id pin))];
      simpl; rewrite ?El; (split; [|done]); set_solver.
  - destruct (isSaved card) eqn:Es;
      [destruct (delete_row gw saves (User.id u) (Pin.id pin))
      |destruct (insert_row gw saves (User.id u) (Pin.id pin))];
      simpl; rewrite ?Es; (split; [done|]); set_solver.
Qed.

Lemma handleLike_of_current
    (gw : Gateway) (user : option User.t) (pin : Pin.t) (card : state)
    (feed : Home.state) :
  handleLike gw user (in_feed pin feed) (card, feed)
  = handleLike_of_render gw user (in_feed pin feed) (isLiked card) (card, feed).
Proof.
  destruct user as [u|]; [|done].
  unfold handleLike, handleLike_of_render, Eff.try_catch, Eff.bind, Eff.get,
    Eff.emit, Eff.await, on_card, call_optional, EffExtra.lift_snd, Eff.modify.
  simpl. destruct (isLiked card); simpl.
  - by destruct (delete_row gw likes (User.id u) (Pin.id pin)).
  - by destruct (insert_row gw likes (User.id u) (Pin.id pin)).
Qed.

Lemma handleLike_of_render_run
    (gw : Gateway) (u : User.t) (pin : Pin.t) (rendered : bool) (card : state)
    (feed props_feed : Home.state) :
  let uid := User.id u in
  let pid := Pin.id pin in
  let op := if rendered then DeleteRow likes uid pid else InsertRow likes uid pid in
  let answer :=
    if rendered then delete_row gw likes uid pid else insert_row gw likes uid pid in
  handleLike_of_render gw (Some u) (in_feed pin props_feed) rendered (card, feed)
  = match answer with
    | Fulfilled _ =>
        (Eff.Ok tt,
         (setIsLiked (negb rendered) card,
          Eff.state_of (Home.handleLike pid (negb rendered) feed)),
         [op])
    | Rejected _ =>
        (Eff.Ok tt, (card, feed),
         [op; Toast "Error" "Failed to update like status" true])
    end.
Proof.
  unfold handleLike_of_render, Eff.try_catch, Eff.bind, Eff.emit, Eff.await,
    on_card, call_optional, EffExtra.lift_snd, Eff.modify. simpl.
  destruct rendered; simpl.
  - by destruct (delete_row gw likes (User.id u) (Pin.id pin)).
  - by destruct (insert_row gw likes (User.id u) (Pin.id pin)).
Qed.

(** X16.  Two like clicks on a card that agrees with the feed, both of
    whose awaited calls return.  If the second click is handled by the
    card as rendered again after the first (the handler then holds the
    new flag), it issues the opposite gateway operation and the card and
    the feed are back exactly where they started.  If the second click is
    handled by the same render as the first (dispatched before the card
    rendered again, the handler still holding the old flag), it issues
    the same gateway operation a second time and the card and the feed
    stay where the first click left them. *)
Theorem two_like_clicks
    (gw : Gateway) (u : User.t) (pin : Pin.t) (card : state) (feed : Home.state)
    (r1 r2 : Response unit) :
  Notions.in_step pin card feed →
  insert_row gw likes (User.id u) (Pin.id pin) = Fulfilled r1 →
  delete_row gw likes (User.id u) (Pin.id pin) = Fulfilled r2 →
  let rendered := isLiked card in
  let props := in_feed pin feed in
  let first := handleLike_of_render gw (Some u) props rendered (card, feed) in
  let after := Eff.state_of first in
  let rerendered :=
    handleLike_of_render gw (Some u) (in_feed pin (snd after)) (isLiked (fst after))
      after in
  let same_render := handleLike_of_render gw (Some u) props rendered after in
  let insert := InsertRow likes (User.id u) (Pin.id pin) in
  let delete := DeleteRow likes (User.id u) (Pin.id pin) in
  isLiked (fst after) = negb rendered
  ∧ Eff.state_of rerendered = (card, feed)
  ∧ Eff.log_of first ++ Eff.log_of rerendered
    = (if rendered then [delete; insert] else [insert; delete])
  ∧ Eff.state_of same_render = after
  ∧ Eff.log_of first ++ Eff.log_of same_render
    = (if rendered then [delete; delete] else [insert; insert]).
Proof.
  intros [Hl _] Hi Hd rendered props first after rerendered same_render insert delete.
  unfold rerendered, same_render, after, first, props, rendered.
  clear rerendered same_render after first props rendered.
  rewrite (handleLike_of_render_run gw u pin (isLiked card) card feed feed).
  destruct (isLiked card) eqn:El; rewrite ?Hi, ?Hd;
    cbn [Eff.state_of Eff.log_of fst snd isLiked setIsLiked negb];
    rewrite !handleLike_of_render_run; cbn [negb]; rewrite ?Hi, ?Hd;
    cbn [Eff.state_of Eff.log_of fst snd app];
    destruct card as [l s i], feed as [ps fs lk sv ld q]; simpl in El, Hl; subst l;
    unfold Home.handleLike, Home.setLikedPins, Eff.modify, Eff.state_of; simpl;
    (split_and!; try done); f_equal; f_equal;
    apply set_eq; intros x; destruct (decide (x = Pin.id pin)); set_solver.
Qed.

Lemma two_like_clicks_witness :
  let card := mkState false false false in
  let first :=
    handleLike_of_render Sample.gateway (Some Sample.user)
      (in_feed Sample.a Home.initial) false (card, Home.initial) in
  Notions.in_step Sample.a card Home.initial
  ∧ insert_row Sample.gateway likes (User.id Sample.user) (Pin.id Sample.a)
    = Fulfilled (mkResponse (Some tt) None)
  ∧ delete_row Sample.gateway likes (User.id Sample.user) (Pin.id Sample.a)
    = Fulfilled (mkResponse (Some tt) None)
  ∧ Eff.log_of first
    ++ Eff.log_of (handleLike_of_render Sample.gateway (Some Sample.user)
                     (in_feed Sample.a Home.initial) false (Eff.state_of first))
    = [InsertRow likes "u1" "a"; InsertRow likes "u1" "a"].
Proof.
  intros card first.
  assert (Notions.in_step Sample.a card Home.initial) as H.
  { split; simpl; set_solver. }
  split; [exact H|]. split; [reflexivity|]. split; [reflexivity|].
  exact (proj2 (proj2 (proj2 (proj2
           (two_like_clicks Sample.gateway Sample.user Sample.a card
              Home.initial _ _ H eq_refl eq_refl))))).
Defined.

(** X17.  A like click whose awaited call returns brings the card and the
    feed into agreement about the liked flag even if they disagreed before
    (a card rendered before the likes were loaded, say): afterwards the
    card's flag is set exactly when the feed's liked set holds the pin.
    When the call throws, both are left as they were. *)
Theorem returned_like_click_agrees
    (gw : Gateway) (u : User.t) (pin : Pin.t) (card : state) (feed : Home.state) :
  let run := handleLike gw (Some u) (in_feed pin feed) (card, feed) in
  let answer :=
    if isLiked card then delete_row gw likes (User.id u) (Pin.id pin)
    else insert_row gw likes (User.id u) (Pin.id pin) in
  match answer with
  | Fulfilled _ =>
      (isLiked (fst (Eff.state_of run)) = true
       ↔ Pin.id pin ∈ Home.likedPins (snd (Eff.state_of run)))
      ∧ ∀ other, other ≠ Pin.id pin →
          (other ∈ Home.likedPins (snd (Eff.state_of run))
           ↔ other ∈ Home.likedPins feed)
  | Rejected _ => Eff.state_of run = (card, feed)
  end.
Proof.
  intros run answer. unfold run. rewrite handleLike_run. fold answer.
  destruct answer; [|done].
  unfold Home.handleLike, Eff.state_of, Eff.modify. simpl.
  destruct (isLiked card); simpl; split; set_solver.
Qed.

(** X18.  A card rendered from the feed starts in agreement with it and
    stays so: after any sequence of like and save clicks on it, by a
    signed-in user or not and whatever the gateway answers, the card's
    flags say what the feed's id sets say about the pin, and no exception
    has escaped. *)
Theorem rendered_card_stays_in_step
    (gw : Gateway) (user : option User.t) (pin : Pin.t) (feed : Home.state)
    (cs : list click) :
  let run := on_clicks gw user pin cs (initial (in_feed pin feed), feed) in
  Eff.result_of run = Eff.Ok tt
  ∧ Notions.in_step pin (fst (Eff.state_of run)) (snd (Eff.state_of run)).
Proof.
  assert (∀ card fd, Notions.in_step pin card fd →
            Eff.result_of (on_clicks gw user pin cs (card, fd)) = Eff.Ok tt
            ∧ Notions.in_step pin
                (fst (Eff.state_of (on_clicks gw user pin cs (card, fd))))
                (snd (Eff.state_of (on_clicks gw user pin cs (card, fd))))) as H.
  { induction cs as [|c cs IH]; intros card fd Hstep; [done|].
    cbn [on_clicks]. unfold Eff.bind.
    assert (∃ card1 fd1 l1,
              on_click gw user pin c (card, fd) = (Eff.Ok tt, (card1, fd1), l1)
              ∧ Notions.in_step pin card1 fd1) as (card1 & fd1 & l1 & -> & Hstep1).
    { destruct (click_keeps_card_in_step gw user pin card fd Hstep) as [Hl Hs].
      destruct c; unfold on_click; cbn [snd].
      - destruct (handleLike gw user (in_feed pin fd) (card, fd))
          as [[r [c1 f1]] l1] eqn:E.
        assert (r = Eff.Ok tt) as ->.
        { destruct user as [u|]; [|by rewrite handleLike_anonymous in E; injection E].
          rewrite handleLike_run in E. by repeat case_match; injection E. }
        by exists c1, f1, l1.
      - destruct (handleSave gw user (in_feed pin fd) (card, fd))
          as [[r [c1 f1]] l1] eqn:E.
        assert (r = Eff.Ok tt) as ->.
        { destruct user as [u|]; [|by rewrite handleSave_anonymous in E; injection E].
          rewrite handleSave_run in E. by repeat case_match; injection E. }
        by exists c1, f1, l1. }
    destruct (IH card1 fd1 Hstep1) as [Hr Hs].
    destruct (on_clicks gw user pin cs (card1, fd1)) as [[r2 s2] l2].
    done. }
  apply H. unfold Notions.in_step, initial, in_feed. simpl.
  by rewrite !bool_decide_eq_true.
Qed.

(** X19.  What a card displays: the author line is never empty (the
    display name, else the username, else "Unknown User"); at most three
    tags are shown and they are the first tags of the pin; the download
    name is a non-empty stem followed by ".jpg". *)
Theorem card_display (pin : Pin.t) :
  author_label pin ≠ ""
  ∧ length (shown_tags pin) ≤ 3
  ∧ shown_tags pin `prefix_of` default [] (Pin.tags pin)
  ∧ ∃ stem, download_name pin = stem +:+ ".jpg" ∧ stem ≠ "".
Proof.
  split_and!.
  - unfold author_label, JS.or_else.
    destruct (Pin.profiles pin) as [[name [[|c d]|] avatar]|]; simpl; try done;
      by destruct name.
  - unfold shown_tags. destruct (Pin.tags pin) as [tags|]; simpl; [|lia].
    destruct (0 <? length tags); simpl; [|lia].
    rewrite length_take. lia.
  - unfold shown_tags. destruct (Pin.tags pin) as [tags|]; simpl; [|done].
    destruct (0 <? length tags); [apply prefix_take | apply prefix_nil].
  - unfold download_name, JS.or_else. eexists. split; [done|].
    by destruct (Pin.title pin).
Qed.

End CardAndFeed.

(** ** Pin creation: what the parsed tags look like *)

Section TagsShape.
Import JS CreatePin.

Lemma occurs_app (c : ascii) (a b : string) :
  occurs c (a +:+ b) = occurs c a || occurs c b.
Proof.
  induction a as [|d a IH]; [done|]. rewrite append_cons. simpl.
  by case_decide.
Qed.

Lemma trim_white_space_free (s : string) : Spec.white_space_free_ends (trim s).
Proof. apply trim_spec. Qed.

Lemma trim_keeps_out (c : ascii) (s : string) :
  occurs c s = false → occurs c (trim s) = false.
Proof.
  destruct (trim_spec s) as [(before & after & Hs & _) _].
  rewrite Hs at 1. rewrite !occurs_app, !orb_false_iff. naive_solver.
Qed.

(** A tag as [parse_tags] produces them. *)
Lemma parse_tags_elem (input tag : string) :
  tag ∈ parse_tags input →
  tag ≠ "" ∧ occurs "," tag = false ∧ Spec.white_space_free_ends tag.
Proof.
  unfold parse_tags. rewrite list_elem_of_In, filter_In, in_map_iff.
  intros [(piece & <- & Hin) Hlen]. split_and!.
  - intros E. by rewrite E in Hlen.
  - apply trim_keeps_out.
    destruct (split_spec "," input) as (_ & Hfree & _).
    rewrite Forall_forall in Hfree. apply Hfree. by apply list_elem_of_In.
  - apply trim_white_space_free.
Qed.

(** X20.  Every tag that [handleSubmit] parses out of the tags field is
    non-empty, holds no comma and neither starts nor ends with white
    space. *)
Theorem parsed_tags_are_clean (input : string) :
  Forall (λ tag, tag ≠ "" ∧ occurs "," tag = false ∧ Spec.white_space_free_ends tag)
    (parse_tags input).
Proof. apply Forall_forall. intros tag. apply parse_tags_elem. Qed.

Lemma split_app_sep (sep : ascii) (p s : string) :
  occurs sep p = false → split sep (p +:+ String sep s) = p :: split sep s.
Proof.
  induction p as [|c p IH]; intros Hp.
  - rewrite append_nil. simpl. by rewrite decide_True.
  - simpl in Hp. case_decide as Hc; [done|].
    rewrite append_cons. simpl. rewrite decide_False by done.
    by rewrite IH.
Qed.

Lemma split_no_sep (sep : ascii) (p : string) :
  occurs sep p = false → split sep p = [p].
Proof.
  induction p as [|c p IH]; intros Hp; [done|].
  simpl in Hp. case_decide as Hc; [done|].
  simpl. rewrite decide_False by done. by rewrite IH.
Qed.

Lemma split_join (sep : ascii) (pieces : list string) :
  pieces ≠ [] → Forall (λ p, occurs sep p = false) pieces →
  split sep (join sep pieces) = pieces.
Proof.
  intros Hne Hfree. induction Hfree as [|p rest Hp Hrest IH]; [done|].
  destruct rest as [|q rest].
  - by apply split_no_sep.
  - change (join sep (p :: q :: rest))
      with (p +:+ String sep (join sep (q :: rest))).
    rewrite split_app_sep by done. f_equal. by apply IH.
Qed.

Lemma trimEnd_clean (t : string) :
  from_option is_white_space false (last_char t) = false → trimEnd t = t.
Proof.
  induction t as [|c t IH]; [done|]. intros Hl.
  destruct t as [|d t].
  - simpl in *. by rewrite Hl.
  - change (last_char (String c (String d t))) with (last_char (String d t)) in Hl.
    change (trimEnd (String c (String d t)))
      with (match trimEnd (String d t) with
            | EmptyString => if is_white_space c then EmptyString else String c EmptyString
            | u => String c u
            end).
    by rewrite (IH Hl).
Qed.

Lemma trim_clean (t : string) : Spec.white_space_free_ends t → trim t = t.
Proof.
  intros [Hf Hl]. unfold trim.
  assert (trimStart t = t) as ->.
  { destruct t as [|c t]; [done|]. simpl in *. by rewrite Hf. }
  by apply trimEnd_clean.
Qed.

Lemma parse_tags_join (tags : list string) :
  Forall (λ tag, tag ≠ "" ∧ occurs "," tag = false ∧ Spec.white_space_free_ends tag)
    tags →
  parse_tags (join "," tags) = tags.
Proof.
  intros Hclean. destruct tags as [|t tags]; [done|].
  unfold parse_tags. rewrite split_join; [|done|].
  - induction Hclean as [|x l (Hne & _ & Hends) _ IH]; [done|].
    simpl. rewrite (trim_clean x Hends), IH.
    by destruct x.
  - eapply Forall_impl; [exact Hclean|]. naive_solver.
Qed.

(** X21.  Parsing is stable: writing the parsed tags back with commas
    between them and parsing the result gives the same tags again. *)
Theorem parse_tags_round_trip (input : string) :
  parse_tags (join "," (parse_tags input)) = parse_tags input.
Proof.
  apply parse_tags_join, Forall_forall. intros tag. apply parse_tags_elem.
Qed.

Lemma all_white_space_app (a b : string) :
  all_white_space (a +:+ b) = all_white_space a && all_white_space b.
Proof.
  induction a as [|c a IH]; [done|]. rewrite append_cons. simpl.
  by rewrite IH, andb_assoc.
Qed.

Lemma trimStart_all_white_space (p : string) :
  all_white_space p = true → trimStart p = "".
Proof.
  induction p as [|c p IH]; [done|]. simpl.
  intros [Hc Hp]%andb_true_iff. rewrite Hc. by apply IH.
Qed.

Lemma trim_empty_iff (p : string) : trim p = "" ↔ all_white_space p = true.
Proof.
  unfold trim. split.
  - intros Ht.
    destruct (trimStart_spec p) as (w1 & Hp & Hw1 & _).
    destruct (trimEnd_spec (trimStart p)) as (w2 & Hs & Hw2 & _).
    rewrite Ht, append_nil in Hs.
    rewrite Hp, all_white_space_app, Hw1, Hs, Hw2. done.
  - intros Hp. by rewrite trimStart_all_white_space.
Qed.

Lemma split_all_white_space (sep : ascii) (s : string) :
  Forall (λ p, all_white_space p = true) (split sep s) ↔ Notions.blank sep s = true.
Proof.
  induction s as [|c s IH]; simpl.
  - split; [done | by repeat constructor].
  - pose proof (split_nonempty sep s) as Hne.
    case_decide as Hc.
    + rewrite Forall_cons, IH, bool_decide_eq_true_2 by done. simpl. naive_solver.
    + rewrite bool_decide_eq_false_2 by done. simpl.
      destruct (split sep s) as [|piece rest]; [done|].
      rewrite Forall_cons in IH. rewrite Forall_cons. simpl.
      rewrite !andb_true_iff. rewrite <- IH. naive_solver.
Qed.

Lemma filter_nil_iff {A} (f : A → bool) (l : list A) :
  List.filter f l = [] ↔ Forall (λ x, f x = false) l.
Proof.
  induction l as [|x l IH]; simpl; [by split|].
  rewrite Forall_cons. destruct (f x); [|naive_solver].
  split; [done | by intros [? _]].
Qed.

(** X22.  The tags field yields no tag at all exactly when it holds
    nothing but commas and white space; the empty field is one such. *)
Theorem no_tags_iff_blank (input : string) :
  parse_tags input = [] ↔ Notions.blank "," input = true.
Proof.
  unfold parse_tags. rewrite filter_nil_iff, Forall_map.
  rewrite <- split_all_white_space. apply Forall_iff. intros p. simpl.
  rewrite <- trim_empty_iff. destruct (trim p); simpl; naive_solver.
Qed.

Example no_tags_ex : parse_tags " , ,, " = [] ∧ parse_tags ", x ," = ["x"].
Proof. split; reflexivity. Qed.

End TagsShape.

(** ** Pin creation: the storage path *)

Section StoragePath.
Import JS CreatePin.

Lemma length_append (a b : string) :
  String.length (a +:+ b) = String.length a + String.length b.
Proof.
  induction a as [|c a IH]; [done|]. rewrite append_cons. simpl. by rewrite IH.
Qed.

Lemma append_cancel_r (a b s : string) : a +:+ s = b +:+ s → a = b.
Proof.
  revert b. induction a as [|c a IH]; intros b H.
  - destruct b as [|d b]; [done|].
    apply (f_equal String.length) in H.
    rewrite append_nil, append_cons in H. simpl in H.
    rewrite length_append in H. lia.
  - destruct b as [|d b].
    + apply (f_equal String.length) in H.
      rewrite append_nil, append_cons in H. simpl in H.
      rewrite length_append in H. lia.
    + rewrite !append_cons in H. injection H as -> H. f_equal. by apply IH.
Qed.

(** X23.  Uploads are keyed by time: for one user and one file, two
    different timestamps give two different storage paths. *)
Theorem paths_differ_by_timestamp (u : User.t) (file : File.t) (now1 now2 : N) :
  now1 ≠ now2 → fileName u now1 file ≠ fileName u now2 file.
Proof.
  intros Hne Heq. unfold fileName in Heq.
  apply (inj (String.app _)) in Heq.
  apply (inj (String.app "/")) in Heq.
  apply append_cancel_r in Heq.
  by apply (inj pretty) in Heq.
Qed.

Lemma paths_differ_by_timestamp_witness :
  1700000000000%N ≠ 1700000000001%N
  ∧ fileName Sample.user 1700000000000 Sample.photo
    ≠ fileName Sample.user 1700000000001 Sample.photo.
Proof.
  split; [done|].
  apply (paths_differ_by_timestamp Sample.user Sample.photo). done.
Defined.

(** X24.  Uploads are namespaced by user: when the user's id holds no
    slash, the first segment of the storage path is that id. *)
Theorem path_starts_with_user (u : User.t) (file : File.t) (now : N) :
  occurs "/" (User.id u) = false →
  head (split "/" (fileName u now file)) = Some (User.id u).
Proof.
  intros Hid. unfold fileName.
  change ("/" +:+ ?s) with (String "/" s).
  by rewrite split_app_sep.
Qed.

Lemma path_starts_with_user_witness :
  occurs "/" (User.id Sample.user) = false
  ∧ head (split "/" (fileName Sample.user 1700000000000 Sample.photo)) = Some "u1".
Proof.
  split; [reflexivity|].
  apply (path_starts_with_user Sample.user Sample.photo 1700000000000). reflexivity.
Defined.

Lemma join_snoc (sep : ascii) (pieces : list string) (x : string) :
  pieces ≠ [] → join sep (pieces ++ [x]) = join sep pieces +:+ String sep x.
Proof.
  induction pieces as [|p rest IH]; [done|]. intros _.
  destruct rest as [|q rest]; [done|].
  change (join sep ((p :: q :: rest) ++ [x]))
    with (p +:+ String sep (join sep ((q :: rest) ++ [x]))).
  rewrite IH by done.
  change (join sep (p :: q :: rest)) with (p +:+ String sep (join sep (q :: rest))).
  clear. induction p as [|c p IH]; [done|]. by rewrite !append_cons, IH.
Qed.

(** X25.  The extension put in the storage path is the part of the file's
    name after its last dot, and the whole name when the name has no dot;
    it never holds a dot itself. *)
Theorem path_extension (u : User.t) (file : File.t) (now : N) :
  ∃ extension,
    fileName u now file
    = User.id u +:+ "/" +:+ pretty now +:+ "." +:+ extension
    ∧ occurs "." extension = false
    ∧ ((occurs "." (File.name file) = false ∧ File.name file = extension)
       ∨ ∃ stem, File.name file = stem +:+ "." +:+ extension).
Proof.
  unfold fileName, pop.
  destruct (split_spec "." (File.name file)) as (Hne & Hfree & Hjoin).
  destruct (split "." (File.name file)) as [|p l _] using rev_ind; [done|].
  rewrite last_snoc. exists p. simpl.
  apply Forall_app in Hfree as [Hl Hp]. rewrite Forall_singleton in Hp.
  split_and!; try done.
  destruct l as [|q l].
  - left. simpl in Hjoin. by rewrite <- Hjoin.
  - right. exists (join "." (q :: l)). rewrite <- Hjoin.
    by rewrite join_snoc.
Qed.

Example path_extension_ex :
  fileName Sample.user 5 (File.mk "holiday.final.PNG" 10 "image/png") = "u1/5.PNG"
  ∧ fileName Sample.user 5 (File.mk "scan" 10 "image/png") = "u1/5.scan".
Proof. split; reflexivity. Qed.

End StoragePath.

(** ** Pin creation: the screen over a sequence of events *)

Section CreationScreen.
Import JS CreatePin.

(** One event keeps the selected image acceptable, uploads nothing but the
    selected image and does not throw. *)
Lemma handle_keeps_acceptable
    (gw : Gateway) (user : option User.t) (ev : event) (st : state) :
  (∀ f, imageFile st = Some f → Notions.acceptable f) →
  let run := handle gw user ev st in
  Eff.result_of run = Eff.Ok tt
  ∧ (∀ f, imageFile (Eff.state_of run) = Some f → Notions.acceptable f)
  ∧ (∀ path f, Upload path f ∈ Eff.log_of run → Notions.acceptable f).
Proof.
  intros Hst run. unfold run. destruct ev as [file|result| |v|v|v|now]; simpl;
    try (split_and!; [done | done | unfold Eff.log_of; simpl; set_solver]).
  - destruct file as [file|];
      [|split_and!; [done | done | unfold Eff.log_of; simpl; set_solver]].
    rewrite handleImageUpload_run. change size_limit with 10485760%N.
    destruct (N.ltb_spec 10485760 (File.size file));
      [split_and!; [done | done | unfold Eff.log_of; simpl; set_solver]|].
    destruct (startsWith (File.type file) "image/") eqn:Htype; simpl;
      [|split_and!; [done | done | unfold Eff.log_of; simpl; set_solver]].
    apply startsWith_image in Htype.
    split_and!; [done | | unfold Eff.log_of; simpl; set_solver].
    unfold Eff.state_of. simpl. intros f [= <-]. by split.
  - destruct user as [u|];
      [|rewrite handleSubmit_guard by auto;
        split_and!; [done | done | unfold Eff.log_of; simpl; set_solver]].
    destruct (imageFile st) as [file|] eqn:Himg;
      [|rewrite handleSubmit_guard by auto;
        split_and!; [done | unfold Eff.state_of; simpl; by rewrite Himg
                    | unfold Eff.log_of; simpl; set_solver]].
    rewrite (handleSubmit_run gw now u file st Himg).
    split_and!; [done | unfold Eff.state_of; simpl; rewrite Himg; exact Hst |].
    unfold Eff.log_of. simpl. intros path f Hin.
    assert (f = file) as -> by (repeat case_match; set_solver).
    by apply Hst.
Qed.

(** X26.  Whatever the user does on the creation screen (selecting files,
    removing the image, editing the fields, submitting, in any order and
    with any gateway answers), no exception escapes, the selected image
    always passes the size and type checks, and so does every file that is
    uploaded. *)
Theorem creation_screen_uploads_acceptable
    (gw : Gateway) (user : option User.t) (evs : list event) :
  let run := handle_all gw user evs initial in
  Eff.result_of run = Eff.Ok tt
  ∧ (∀ f, imageFile (Eff.state_of run) = Some f → Notions.acceptable f)
  ∧ (∀ path f, Upload path f ∈ Eff.log_of run → Notions.acceptable f).
Proof.
  assert (∀ st, (∀ f, imageFile st = Some f → Notions.acceptable f) →
            Eff.result_of (handle_all gw user evs st) = Eff.Ok tt
            ∧ (∀ f, imageFile (Eff.state_of (handle_all gw user evs st)) = Some f →
                    Notions.acceptable f)
            ∧ (∀ path f, Upload path f ∈ Eff.log_of (handle_all gw user evs st) →
                         Notions.acceptable f)) as H.
  { induction evs as [|ev evs IH]; intros st Hst.
    - split_and!; [done | done | unfold Eff.log_of; simpl; set_solver].
    - destruct (handle_keeps_acceptable gw user ev st Hst) as (Hr & Hs & Hl).
      cbn [handle_all]. unfold Eff.bind.
      destruct (handle gw user ev st) as [[r s1] l1].
      unfold Eff.result_of, Eff.state_of, Eff.log_of in Hr, Hs, Hl. simpl in *.
      subst r. destruct (IH s1 Hs) as (Hr' & Hs' & Hl').
      destruct (handle_all gw user evs s1) as [[r2 s2] l2].
      unfold Eff.result_of, Eff.state_of, Eff.log_of in *. simpl in *.
      split_and!; [done | done |].
      intros path f [Hin|Hin]%elem_of_app; eauto. }
  apply H. done.
Qed.

Example creation_screen_ex :
  Eff.log_of (handle_all Sample.gateway (Some Sample.user)
                [SelectFile (Some Sample.huge_photo); ChangeTitle "Beach"; Submit 7;
                 SelectFile (Some Sample.photo); ReaderLoaded "data:"; Submit 8]
                initial)
  = [Toast "File too large" "Please choose an image smaller than 10MB" true;
     ReadAsDataURL Sample.photo;
     Upload "u1/8.jpeg" Sample.photo; GetPublicUrl "u1/8.jpeg";
     InsertPin (NewPin.mk "u1" "Beach" None "https://cdn/u1/8.jpeg" []);
     Toast "Pin created!" "Your pin has been shared successfully." false;
     Navigate "/"].
Proof. vm_compute. reflexivity. Qed.

(** X27.  A pin record is inserted only by a signed-in user with a
    selected image, after that image was uploaded without failure.  The
    record carries the user's id, the form's title, the public URL of the
    uploaded path, and the form's description, or no description at all
    when that field is empty: never an empty description. *)
Theorem inserted_row_fields
    (gw : Gateway) (now : N) (user : option User.t) (st : state) (row : NewPin.t) :
  InsertPin row ∈ Eff.log_of (handleSubmit gw now user st) →
  ∃ u file,
    user = Some u ∧ imageFile st = Some file
    ∧ Spec.failure (upload gw (fileName u now file) file) = None
    ∧ NewPin.user_id row = User.id u
    ∧ NewPin.title row = title (formData st)
    ∧ NewPin.image_url row = getPublicUrl gw (fileName u now file)
    ∧ NewPin.description row ≠ Some ""
    ∧ (NewPin.description row = None ↔ description (formData st) = "")
    ∧ (∀ d, NewPin.description row = Some d → d = description (formData st)).
Proof.
  intros Hin.
  destruct user as [u|];
    [|rewrite handleSubmit_guard in Hin by auto; by apply elem_of_nil in Hin].
  destruct (imageFile st) as [file|] eqn:Himg;
    [|rewrite handleSubmit_guard in Hin by auto; by apply elem_of_nil in Hin].
  rewrite (handleSubmit_run gw now u file st Himg) in Hin.
  unfold Eff.log_of in Hin. simpl in Hin.
  exists u, file.
  destruct (Spec.failure (upload gw (fileName u now file) file)) eqn:Hup;
    [set_solver|].
  assert (row = pin_row u (formData st) (getPublicUrl gw (fileName u now file)))
    as -> by (repeat case_match; set_solver).
  unfold pin_row. simpl.
  destruct (description (formData st)) as [|c d]; simpl; split_and!; try done.
  intros d' [= <-]. done.
Qed.

Lemma inserted_row_fields_witness :
  let row := NewPin.mk "u1" "Beach" None "https://cdn/u1/1700000000000.jpeg"
               ["food"; "recipe"] in
  InsertPin row
    ∈ Eff.log_of (handleSubmit Sample.gateway 1700000000000 (Some Sample.user)
                    Sample.tagged_draft)
  ∧ ∃ u file,
      Some Sample.user = Some u ∧ imageFile Sample.tagged_draft = Some file
      ∧ Spec.failure (upload Sample.gateway (fileName u 1700000000000 file) file) = None
      ∧ NewPin.user_id row = User.id u
      ∧ NewPin.title row = title (formData Sample.tagged_draft)
      ∧ NewPin.image_url row
        = getPublicUrl Sample.gateway (fileName u 1700000000000 file)
      ∧ NewPin.description row ≠ Some ""
      ∧ (NewPin.description row = None ↔ description (formData Sample.tagged_draft) = "")
      ∧ (∀ d, NewPin.description row = Some d
              → d = description (formData Sample.tagged_draft)).
Proof.
  intros row.
  assert (InsertPin row
            ∈ Eff.log_of (handleSubmit Sample.gateway 1700000000000
                            (Some Sample.user) Sample.tagged_draft)) as Hin.
  { vm_compute. do 2 right. left. }
  split; [exact Hin|].
  exact (inserted_row_fields _ _ _ _ _ Hin).
Defined.

(** X28.  The submit button's condition covers the handler's guard: when
    the button is enabled there is a selected image, a non-empty title and
    no submission in progress, so a signed-in submission starts by
    uploading that image and any record it inserts has a non-empty
    title. *)
Theorem enabled_button_submits (st : state) :
  submit_disabled st = false →
  ∃ file,
    imageFile st = Some file
    ∧ title (formData st) ≠ ""
    ∧ loading st = false
    ∧ ∀ gw now u,
        head (Eff.log_of (handleSubmit gw now (Some u) st))
        = Some (Upload (fileName u now file) file)
        ∧ ∀ row, InsertPin row ∈ Eff.log_of (handleSubmit gw now (Some u) st) →
                 NewPin.title row ≠ "".
Proof.
  unfold submit_disabled. rewrite !orb_false_iff, !negb_false_iff.
  intros [[Himg Htitle] Hload].
  apply bool_decide_eq_true in Himg as [file Himg].
  exists file. split_and!; try done.
  { intros E. by rewrite E in Htitle. }
  intros gw now u. rewrite (handleSubmit_run gw now u file st Himg).
  unfold Eff.log_of. simpl. split; [done|].
  intros row Hin.
  assert (row = pin_row u (formData st) (getPublicUrl gw (fileName u now file)))
    as -> by (repeat case_match; set_solver).
  simpl. intros E. by rewrite E in Htitle.
Qed.

Lemma enabled_button_submits_witness :
  submit_disabled Sample.tagged_draft = false
  ∧ ∃ file,
      imageFile Sample.tagged_draft = Some file
      ∧ title (formData Sample.tagged_draft) ≠ ""
      ∧ loading Sample.tagged_draft = false
      ∧ ∀ gw now u,
          head (Eff.log_of (handleSubmit gw now (Some u) Sample.tagged_draft))
          = Some (Upload (fileName u now file) file)
          ∧ ∀ row, InsertPin row
                     ∈ Eff.log_of (handleSubmit gw now (Some u) Sample.tagged_draft) →
                   NewPin.title row ≠ "".
Proof.
  split; [reflexivity | apply (enabled_button_submits Sample.tagged_draft); reflexivity].
Defined.

(** X29.  Removing the image closes the way to a submission: afterwards
    the selected image and the preview are empty, the form fields are kept,
    the submit button is disabled, and a submission performs nothing and
    changes nothing, for any user and gateway. *)
Theorem removed_image_blocks_submission
    (gw : Gateway) (now : N) (user : option User.t) (st : state) :
  let st' := Eff.state_of (removeImage st) in
  imageFile st' = None
  ∧ imagePreview st' = ""
  ∧ formData st' = formData st
  ∧ Eff.log_of (removeImage st) = []
  ∧ submit_disabled st' = true
  ∧ handleSubmit gw now user st' = (Eff.Ok tt, st', []).
Proof.
  intros st'. split_and!; try done.
  apply handleSubmit_guard. by right.
Qed.

End CreationScreen.
